(** * streamprint: print / fprint over an output stream

    A shallow embedding of [streamprint.h].  The header is a set of C++
    templates over an arbitrary stream type [T]; the embedding keeps that
    shape: the stream is a type class ([Stream]), the heterogeneous argument
    pack is a list over a value type with an insertion operator ([Put]), and
    the private [char] buffer the format string is copied into is a list of
    characters addressed by index, with [None] for the null pointer. *)

From Stdlib Require Import ZArith Ascii String DecimalString DecimalN.
From stdpp Require Import base tactics option list sets.

Local Open Scope char_scope.
Local Open Scope list_scope.

(** ** C strings in a character buffer *)

Definition NUL : ascii := "000".
(** [char(1)], the byte written over a consumed brace. *)
Definition SOH : ascii := "001".

#[export] Instance ascii_eqdec : EqDecision ascii := ascii_dec.

Definition chars (s : string) : list ascii := list_ascii_of_string s.

(** [*(p)] for a pointer [p] into the buffer.  Every read the program makes
    stays at or before the terminator of a terminated buffer; the default is
    only there to make the function total. *)
Definition peek (buf : list ascii) (p : nat) : ascii := default NUL (buf !! p).

(** [*(p) = c]: writes inside the buffer only (stdpp's insert leaves the list
    alone out of range, the program never writes there). *)
Definition poke (p : option nat) (c : ascii) (buf : list ascii) : list ascii :=
  match p with
  | Some i => <[i:=c]> buf
  | None => buf
  end.

(** The characters of a C string: everything before the first terminator. *)
Fixpoint until_nul (s : list ascii) : list ascii :=
  match s with
  | [] => []
  | x :: t => if Ascii.eqb x NUL then [] else x :: until_nul t
  end.

Definition cstr (buf : list ascii) (p : nat) : list ascii := until_nul (drop p buf).

Definition strlen (mem : list ascii) : nat := length (until_nul mem).

(** [strchr]: offset of the first [c] in the C string [s], the terminator
    included in the search. *)
Fixpoint scan (c : ascii) (s : list ascii) : option nat :=
  match s with
  | [] => None
  | x :: t =>
      if Ascii.eqb x c then Some 0
      else if Ascii.eqb x NUL then None
      else S <$> scan c t
  end.

Definition strchr (buf : list ascii) (p : nat) (c : ascii) : option nat :=
  (λ i, p + i) <$> scan c (drop p buf).

(** ** [atoi] *)

Definition isspace (c : ascii) : bool :=
  let n := nat_of_ascii c in Nat.eqb n 32 || (Nat.leb 9 n && Nat.leb n 13).

Definition digit_val (c : ascii) : option Z :=
  let n := nat_of_ascii c in
  if Nat.leb 48 n && Nat.leb n 57 then Some (Z.of_nat (n - 48)) else None.

Fixpoint atoi_digits (s : list ascii) (acc : Z) : Z :=
  match s with
  | [] => acc
  | c :: t =>
      match digit_val c with
      | Some d => atoi_digits t (10 * acc + d)
      | None => acc
      end
  end.

(** Leading white space, an optional sign, then decimal digits; anything else
    (the terminator included) ends the number.  The result is not reduced to
    the range of [int]: out of range [atoi] is undefined in C. *)
Fixpoint atoi_str (s : list ascii) : Z :=
  match s with
  | [] => 0
  | c :: t =>
      if isspace c then atoi_str t
      else if Ascii.eqb c "-" then (- atoi_digits t 0)%Z
      else if Ascii.eqb c "+" then atoi_digits t 0
      else atoi_digits s 0
  end.

Definition atoi (buf : list ascii) (p : nat) : Z := atoi_str (drop p buf).

(** ** The stream interface

    What the header asks of its template parameter [T]: insertion of a C
    string and the [<iomanip>] / [<ios>] manipulators it names. *)

Class Stream (T : Type) := {
  put_cstr : T → list ascii → T;
  setw : Z → T → T;
  setprecision : Z → T → T;
  setfill : ascii → T → T;
  ios_fixed : T → T;
  ios_scientific : T → T;
  ios_hexfloat : T → T;
  ios_defaultfloat : T → T;
  ios_left : T → T;
  ios_right : T → T
}.

(** [out << v] for an argument of the pack. *)
Class Put (T V : Type) := put : T → V → T.
Infix "<<" := put (at level 50, left associativity).

Module detail.
Section detail.
Context {T V : Type} `{!Stream T, !Put T V}.

(** *** [print_h]: three overloads, by the size of the pack *)
Fixpoint print_h (out : T) (args : list V) : T :=
  match args with
  | [] => out
  | a :: rest =>
      match rest with
      | [] => out << a
      | _ :: _ => print_h (out << a) rest
      end
  end.

(** *** [setOpts] *)

(** The [setopt] lambda; [optstr] is the captured start of the option
    string, [opt] the match, [f] the action on the argument pointer. *)
Definition setopt (buf : list ascii) (optstr opt : nat)
    (f : nat → T → T) (out : T) : T :=
  if bool_decide (optstr < opt) && Ascii.eqb (peek buf (opt - 1)) "f" then
    match strchr buf (opt + 1) (peek buf opt) with
    | Some opt' => f (opt' + 1) out
    | None => out
    end
  else f (opt + 1) out.

(** The [switch] of the [m] directive. *)
Definition set_notation (c : ascii) (out : T) : T :=
  if Ascii.eqb c "x" then ios_fixed out
  else if Ascii.eqb c "s" then ios_scientific out
  else if Ascii.eqb c "h" then ios_hexfloat out
  else if Ascii.eqb c "d" then ios_defaultfloat out
  else out.

Definition opt_w (buf : list ascii) (optstr : nat) (out : T) : T :=
  match strchr buf optstr "w" with
  | Some opt => setopt buf optstr opt (λ o, setw (atoi buf o)) out
  | None => out
  end.

Definition opt_p (buf : list ascii) (optstr : nat) (out : T) : T :=
  match strchr buf optstr "p" with
  | Some opt => setopt buf optstr opt (λ o, setprecision (atoi buf o)) out
  | None => out
  end.

Definition opt_m (buf : list ascii) (optstr : nat) (out : T) : T :=
  match strchr buf optstr "m" with
  | Some opt => setopt buf optstr opt (λ o, set_notation (peek buf o)) out
  | None => out
  end.

Definition opt_f (buf : list ascii) (optstr : nat) (out : T) : T :=
  match strchr buf optstr "f" with
  | Some opt => setfill (peek buf (opt + 1)) out
  | None => out
  end.

Definition opt_L (buf : list ascii) (optstr : nat) (out : T) : T :=
  match strchr buf optstr "L" with
  | Some _ => ios_left out
  | None => out
  end.

Definition opt_R (buf : list ascii) (optstr : nat) (out : T) : T :=
  match strchr buf optstr "R" with
  | Some _ => ios_right out
  | None => out
  end.

Definition setOpts (out : T) (buf : list ascii) (optstr : nat) : T :=
  opt_R buf optstr (opt_L buf optstr (opt_f buf optstr
    (opt_m buf optstr (opt_p buf optstr (opt_w buf optstr out))))).

(** *** [checkSetOpts]

    Returns the stream, the buffer as the call leaves it and the new
    format pointer. *)
Definition checkSetOpts (out : T) (buf : list ascii) (f : option nat)
    : T * list ascii * option nat :=
  match f with
  | None => (out, buf, None)
  | Some f =>
      let b1 := strchr buf f "{" in
      let b2 := strchr buf f "}" in
      let buf := poke b1 NUL buf in
      let buf := poke b2 NUL buf in
      let out := put_cstr out (cstr buf f) in
      let out :=
        match b1 with
        | Some b1 => setOpts out buf (b1 + 1)
        | None => out
        end in
      let f' := S <$> b2 in
      let buf := poke b1 SOH buf in
      let buf := poke b2 SOH buf in
      (out, buf, f')
  end.

(** *** [fprint_h]: three overloads, by the size of the pack *)

(** The overload for the empty pack. *)
Definition fprint_h0 (out : T) (buf : list ascii) (f : option nat)
    : T * list ascii :=
  let '(out, buf, _) := checkSetOpts out buf f in (out, buf).

Fixpoint fprint_h (out : T) (buf : list ascii) (f : option nat)
    (args : list V) : T * list ascii :=
  match args with
  | [] => fprint_h0 out buf f
  | a :: rest =>
      let '(out, buf, f) := checkSetOpts out buf f in
      let out := out << a in
      match rest with
      | [] => fprint_h0 out buf f
      | _ :: _ => fprint_h out buf f rest
      end
  end.
End detail.
End detail.

Section api.
Context {T V : Type} `{!Stream T, !Put T V}.

Definition print (out : T) (args : list V) : T := detail.print_h out args.

(** [fprint] on a character array: the array is [s] followed by its
    terminator, so [N = length s + 1]; [N == 1] selects the overload that
    goes to [print_h], [N > 1] the one that copies the array. *)
Definition fprint_lit (out : T) (s : list ascii) (args : list V) : T :=
  let f := s ++ [NUL] in
  if Nat.eqb (length f) 1 then detail.print_h out args
  else
    let fcpy := f in
    (detail.fprint_h out fcpy (Some 0) args).1.

(** [fprint] on a [char] pointer to the C string [s]. *)
Definition fprint_ptr (out : T) (s : list ascii) (args : list V) : T :=
  let f := s ++ [NUL] in
  let slen := strlen f + 1 in
  match slen with
  | S _ =>
      let fcpy := take slen f in
      (detail.fprint_h out fcpy (Some 0) args).1
  | 0 => print out args
  end.
End api.

(** ** A model of [std::ostream]

    The part of the stream a formatted insertion reads and writes: the text
    written so far and the formatting state of [std::ios_base] that the
    header's manipulators set. *)

Inductive floatfield := ff_default | ff_fixed | ff_scientific | ff_hexfloat.

(** [adj_none] is the state of a fresh stream: no bit of [adjustfield] set,
    which pads like [adj_right]. *)
Inductive adjustfield := adj_none | adj_left | adj_right | adj_internal.

Record ostream := mk_ostream {
  os_text : list ascii;
  os_width : Z;
  os_precision : Z;
  os_fill : ascii;
  os_float : floatfield;
  os_adjust : adjustfield
}.

(** The state [std::basic_ios::init] gives a stream. *)
Definition os_init : ostream :=
  {| os_text := []; os_width := 0; os_precision := 6; os_fill := " ";
     os_float := ff_default; os_adjust := adj_none |}.

Definition with_text (t : list ascii) (o : ostream) : ostream :=
  {| os_text := t; os_width := os_width o; os_precision := os_precision o;
     os_fill := os_fill o; os_float := os_float o; os_adjust := os_adjust o |}.

Definition with_width (w : Z) (o : ostream) : ostream :=
  {| os_text := os_text o; os_width := w; os_precision := os_precision o;
     os_fill := os_fill o; os_float := os_float o; os_adjust := os_adjust o |}.

Definition with_precision (p : Z) (o : ostream) : ostream :=
  {| os_text := os_text o; os_width := os_width o; os_precision := p;
     os_fill := os_fill o; os_float := os_float o; os_adjust := os_adjust o |}.

Definition with_fill (c : ascii) (o : ostream) : ostream :=
  {| os_text := os_text o; os_width := os_width o; os_precision := os_precision o;
     os_fill := c; os_float := os_float o; os_adjust := os_adjust o |}.

Definition with_float (f : floatfield) (o : ostream) : ostream :=
  {| os_text := os_text o; os_width := os_width o; os_precision := os_precision o;
     os_fill := os_fill o; os_float := f; os_adjust := os_adjust o |}.

Definition with_adjust (a : adjustfield) (o : ostream) : ostream :=
  {| os_text := os_text o; os_width := os_width o; os_precision := os_precision o;
     os_fill := os_fill o; os_float := os_float o; os_adjust := a |}.

(** Padding of a formatted insertion: [sign] is the part an [internal]
    adjustment keeps in front of the fill characters. *)
Definition padded (o : ostream) (sign body : list ascii) : list ascii :=
  let n := Z.to_nat (os_width o - Z.of_nat (length (sign ++ body))) in
  let fillc := replicate n (os_fill o) in
  match os_adjust o with
  | adj_left => sign ++ body ++ fillc
  | adj_internal => sign ++ fillc ++ body
  | adj_none | adj_right => fillc ++ sign ++ body
  end.

(** A formatted insertion appends the padded text and resets the width
    ([width(0)]).  The inserters for [const char*], [char] and the integers
    are all formatted insertions; for a C string the padding is made up from
    its length, so the empty string under a pending width of [n] appends [n]
    fill characters. *)
Definition emit (o : ostream) (sign body : list ascii) : ostream :=
  with_width 0 (with_text (os_text o ++ padded o sign body) o).

#[export] Instance ostream_stream : Stream ostream := {|
  put_cstr o s := emit o [] s;
  setw := with_width;
  setprecision := with_precision;
  setfill := with_fill;
  ios_fixed := with_float ff_fixed;
  ios_scientific := with_float ff_scientific;
  ios_hexfloat := with_float ff_hexfloat;
  ios_defaultfloat := with_float ff_default;
  ios_left := with_adjust adj_left;
  ios_right := with_adjust adj_right
|}.

(** Arguments of the pack: the insertable types whose text does not depend on
    floating-point conversion. *)
Inductive value :=
| VInt (n : Z)              (* int, in decimal *)
| VChar (c : ascii)         (* char *)
| VStr (s : list ascii).    (* const char* / std::string, without terminator *)

Definition decimal (n : Z) : list ascii :=
  chars (NilZero.string_of_uint (N.to_uint (Z.abs_N n))).

(** The sign and the body of the text of a value. *)
Definition value_text (v : value) : list ascii * list ascii :=
  match v with
  | VInt n => (if (n <? 0)%Z then ["-"] else [], decimal n)
  | VChar c => ([], [c])
  | VStr s => ([], s)
  end.

(** What [out << v] appends to [o]. *)
Definition rep (o : ostream) (v : value) : list ascii :=
  padded o (value_text v).1 (value_text v).2.

#[export] Instance ostream_put : Put ostream value :=
  λ o v, emit o (value_text v).1 (value_text v).2.

(** ** Placeholder bodies as text

    The reading of a directive the format language intends, on the text of a
    placeholder body rather than on pointers. *)

(** Index of the first [c] in a text. *)
Fixpoint first_occ (c : ascii) (s : list ascii) : option nat :=
  match s with
  | [] => None
  | x :: t => if Ascii.eqb x c then Some 0 else S <$> first_occ c t
  end.

(** The occurrence of the letter [c] that marks the directive: the first
    one, unless the character just before it is [f]; then the next one, if
    there is one. *)
Definition directive_marker (c : ascii) (body : list ascii) : option nat :=
  match first_occ c body with
  | None => None
  | Some i =>
      if bool_decide (0 < i) && Ascii.eqb (peek body (i - 1)) "f"
      then (λ j, i + 1 + j) <$> first_occ c (drop (i + 1) body)
      else Some i
  end.

(** The text from the start of [s] up to the next [c]. *)
Fixpoint upto (c : ascii) (s : list ascii) : list ascii :=
  match s with
  | [] => []
  | x :: t => if Ascii.eqb x c then [] else x :: upto c t
  end.

(** A character at which [atoi] stops wherever it stands. *)
Definition stopper (c : ascii) : bool :=
  negb (isspace c) && negb (Ascii.eqb c "-") && negb (Ascii.eqb c "+")
  && bool_decide (digit_val c = None).

(** What follows a number: nothing, or a character that is not a digit. *)
Definition ends_digits (rest : list ascii) : Prop :=
  match rest with
  | [] => True
  | c :: _ => digit_val c = None
  end.

(** [INT_MAX], the largest value [atoi] can return. *)
Definition int_max : Z := 2147483647.

Definition ends_number (rest : list ascii) : Prop :=
  match rest with
  | [] => True
  | c :: _ => stopper c = true
  end.

Import detail.

Section body_parser.
Context {T : Type} `{!Stream T}.

(** The parser as the format language describes it: one step per directive
    letter, in the order width, precision, notation, fill, left, right, each
    on the text [body] of the placeholder. *)
Definition body_w (body : list ascii) (out : T) : T :=
  match directive_marker "w" body with
  | Some j => setw (atoi_str (drop (j + 1) body)) out
  | None => out
  end.

Definition body_p (body : list ascii) (out : T) : T :=
  match directive_marker "p" body with
  | Some j => setprecision (atoi_str (drop (j + 1) body)) out
  | None => out
  end.

Definition body_m (body : list ascii) (out : T) : T :=
  match directive_marker "m" body with
  | Some j => set_notation (peek body (j + 1)) out
  | None => out
  end.

Definition body_f (body : list ascii) (out : T) : T :=
  match first_occ "f" body with
  | Some i => setfill (peek body (i + 1)) out
  | None => out
  end.

Definition body_L (body : list ascii) (out : T) : T :=
  if bool_decide ("L" ∈ body) then ios_left out else out.

Definition body_R (body : list ascii) (out : T) : T :=
  if bool_decide ("R" ∈ body) then ios_right out else out.

Definition apply_body (out : T) (body : list ascii) : T :=
  body_R body (body_L body (body_f body
    (body_m body (body_p body (body_w body out))))).

End body_parser.




(** ** Texts and placeholders

    What a run of insertions appends: the first value is written under
    the state the stream comes with, the later ones after the width has been
    reset by the insertion before it. *)
Definition reps (o : ostream) (vs : list value) : list (list ascii) :=
  match vs with
  | [] => []
  | v :: rest => rep o v :: map (rep (with_width 0 o)) rest
  end.

(** A placeholder: an opening brace with a closing brace after it. *)
Definition has_placeholder (s : list ascii) : Prop :=
  ∃ i j, i < j ∧ s !! i = Some "{" ∧ s !! j = Some "}".

(** ** Bodies as lists of directives *)

Inductive directive :=
| DWidth (arg : list ascii)
| DPrec (arg : list ascii)
| DNotation (c : ascii)
| DFill (c : ascii)
| DLeft
| DRight.

Definition letter (d : directive) : ascii :=
  match d with
  | DWidth _ => "w"
  | DPrec _ => "p"
  | DNotation _ => "m"
  | DFill _ => "f"
  | DLeft => "L"
  | DRight => "R"
  end.

Definition args (d : directive) : list ascii :=
  match d with
  | DWidth a | DPrec a => a
  | DNotation c | DFill c => [c]
  | DLeft | DRight => []
  end.

Definition text (d : directive) : list ascii := letter d :: args d.

(** The body that spells the directives in the order of the list. *)
Definition body_of (ds : list directive) : list ascii := concat (text <$> ds).

Definition letters : list ascii := ["w"; "p"; "m"; "f"; "L"; "R"].

(** A character that is neither a directive letter nor the terminator. *)
Definition plain (c : ascii) : Prop := c ∉ NUL :: letters.

Definition plain_args (ds : list directive) : Prop :=
  Forall (λ d, Forall plain (args d)) ds.

(** The argument of the directive with letter [c]. *)
Fixpoint arg_of (c : ascii) (ds : list directive) : option (list ascii) :=
  match ds with
  | [] => None
  | d :: r => if Ascii.eqb (letter d) c then Some (args d) else arg_of c r
  end.

(** Where the directive with letter [c] starts in the body. *)
Fixpoint offset_of (c : ascii) (ds : list directive) : option nat :=
  match ds with
  | [] => None
  | d :: r =>
      if Ascii.eqb (letter d) c then Some 0
      else (λ n, length (text d) + n) <$> offset_of c r
  end.

(** The directives applied in the scan order of [setOpts]. *)
Definition canon {T : Type} `{!Stream T} (out : T) (ds : list directive) : T :=
  let out :=
    match arg_of "w" ds with Some a => setw (atoi_str a) out | None => out end in
  let out :=
    match arg_of "p" ds with
    | Some a => setprecision (atoi_str a) out
    | None => out
    end in
  let out :=
    match arg_of "m" ds with
    | Some a => set_notation (peek a 0) out
    | None => out
    end in
  let out :=
    match arg_of "f" ds with Some a => setfill (peek a 0) out | None => out end in
  let out :=
    match arg_of "L" ds with Some _ => ios_left out | None => out end in
  match arg_of "R" ds with Some _ => ios_right out | None => out end.

(** ** Format strings as segments

    A well-formed format string is a run of segments, each a literal text
    followed by one placeholder, and a last literal text. *)

Definition seg_text (sg : list ascii * list ascii) : list ascii :=
  sg.1 ++ "{" :: sg.2 ++ ["}"].

Definition fmt_of (segs : list (list ascii * list ascii)) (tail : list ascii)
    : list ascii :=
  concat (seg_text <$> segs) ++ tail.

(** The literal has no brace, the body no closing brace. *)
Definition seg_ok (sg : list ascii * list ascii) : Prop :=
  ("{" ∉ fst sg) ∧ ("}" ∉ fst sg) ∧ (NUL ∉ fst sg) ∧
  ("}" ∉ snd sg) ∧ (NUL ∉ snd sg).

Definition tail_ok (tail : list ascii) : Prop :=
  ("{" ∉ tail) ∧ ("}" ∉ tail) ∧ (NUL ∉ tail).

Section substitution.
Context {T V : Type} `{!Stream T, !Put T V}.

(** What [fprint] does with the segments and the values, one value per
    placeholder: with values left over after the last placeholder the last
    text is written and the values follow; with placeholders left over after
    the last value the next literal is written and the next body applied. *)
Fixpoint subst (out : T) (segs : list (list ascii * list ascii))
    (tail : list ascii) (vs : list V) : T :=
  match segs with
  | [] => print_h (put_cstr out tail) vs
  | sg :: segs' =>
      let out := apply_body (put_cstr out sg.1) sg.2 in
      match vs with
      | [] => out
      | v :: vs' => subst (out << v) segs' tail vs'
      end
  end.

End substitution.

(** The float notation the character after [m] selects. *)
Definition notation_of (c : ascii) (f : floatfield) : floatfield :=
  if Ascii.eqb c "x" then ff_fixed
  else if Ascii.eqb c "s" then ff_scientific
  else if Ascii.eqb c "h" then ff_hexfloat
  else if Ascii.eqb c "d" then ff_default
  else f.

(** The stream [setOpts] leaves, field by field, from the text of the
    body. *)
Definition parsed (body : list ascii) (o : ostream) : ostream :=
  {| os_text := os_text o;
     os_width :=
       match directive_marker "w" body with
       | Some j => atoi_str (drop (j + 1) body)
       | None => os_width o
       end;
     os_precision :=
       match directive_marker "p" body with
       | Some j => atoi_str (drop (j + 1) body)
       | None => os_precision o
       end;
     os_fill :=
       match first_occ "f" body with
       | Some i => peek body (i + 1)
       | None => os_fill o
       end;
     os_float :=
       match directive_marker "m" body with
       | Some j => notation_of (peek body (j + 1)) (os_float o)
       | None => os_float o
       end;
     os_adjust :=
       if bool_decide ("R" ∈ body) then adj_right
       else if bool_decide ("L" ∈ body) then adj_left
       else os_adjust o |}.

(** ** Facts about C strings *)

Lemma until_nul_split M :
  ∃ rest, M = until_nul M ++ rest ∧ (rest = [] ∨ ∃ tl, rest = NUL :: tl).
Proof.
  induction M as [|x M IH]; simpl.
  - exists []. auto.
  - destruct (Ascii.eqb_spec x NUL) as [->|Hx].
    + exists (NUL :: M). eauto.
    + destruct IH as (rest & HM & Hrest). exists rest. split; [|done].
      simpl. by rewrite <- HM.
Qed.

Lemma until_nul_no_nul M : NUL ∉ until_nul M.
Proof.
  induction M as [|x M IH]; simpl; [apply not_elem_of_nil|].
  destruct (Ascii.eqb_spec x NUL) as [->|Hx]; [apply not_elem_of_nil|].
  rewrite elem_of_cons. intros [?|?]; [congruence|done].
Qed.

Lemma until_nul_app b rest :
  NUL ∉ b → (rest = [] ∨ ∃ tl, rest = NUL :: tl) → until_nul (b ++ rest) = b.
Proof.
  induction b as [|x b IH]; simpl; intros Hb Hrest.
  - destruct Hrest as [->|(tl & ->)]; done.
  - rewrite not_elem_of_cons in Hb. destruct Hb as [Hx Hb].
    destruct (Ascii.eqb_spec x NUL) as [->|_]; [done|].
    by rewrite IH.
Qed.

Lemma until_nul_id b : NUL ∉ b → until_nul b = b.
Proof.
  intros Hb. rewrite <- (app_nil_r b) at 1. apply until_nul_app; auto.
Qed.

Lemma until_nul_drop k M :
  k ≤ length (until_nul M) → until_nul (drop k M) = drop k (until_nul M).
Proof.
  revert M. induction k as [|k IH]; intros M Hk; [by rewrite !drop_0|].
  destruct M as [|x M]; [done|]. simpl in *.
  destruct (Ascii.eqb_spec x NUL) as [->|_]; simpl in *; [lia|].
  apply IH. lia.
Qed.

Lemma scan_first_occ c M : c ≠ NUL → scan c M = first_occ c (until_nul M).
Proof.
  intros Hc. induction M as [|x M IH]; simpl; [done|].
  destruct (Ascii.eqb_spec x c) as [->|Hxc].
  - destruct (Ascii.eqb_spec c NUL); [done|]. simpl.
    by destruct (Ascii.eqb_spec c c).
  - destruct (Ascii.eqb_spec x NUL) as [->|_]; [done|]. simpl.
    destruct (Ascii.eqb_spec x c); [done|]. by rewrite IH.
Qed.

Lemma first_occ_Some c s i :
  first_occ c s = Some i → s !! i = Some c ∧ c ∉ take i s.
Proof.
  revert i. induction s as [|x s IH]; simpl; intros i; [done|].
  destruct (Ascii.eqb_spec x c) as [->|Hxc].
  - intros [= <-]. split; [done|]. apply not_elem_of_nil.
  - destruct (first_occ c s) as [j|] eqn:Hj; simpl; [|done].
    intros [= <-]. destruct (IH j eq_refl) as [? ?]. split; [done|].
    simpl. rewrite not_elem_of_cons. split; [congruence|done].
Qed.

Lemma first_occ_None c s : first_occ c s = None ↔ c ∉ s.
Proof.
  induction s as [|x s IH]; simpl.
  - split; [intros _; apply not_elem_of_nil|done].
  - rewrite not_elem_of_cons. destruct (Ascii.eqb_spec x c) as [->|Hxc].
    + split; [done|]. intros [? _]. congruence.
    + destruct (first_occ c s); simpl.
      * split; [done|]. intros [_ ?]. apply IH in H. done.
      * split; [|done]. intros _. split; [congruence|]. by apply IH.
Qed.

Lemma first_occ_app c pre post :
  c ∉ pre → first_occ c (pre ++ c :: post) = Some (length pre).
Proof.
  induction pre as [|x pre IH]; simpl; intros Hpre.
  - by destruct (Ascii.eqb_spec c c).
  - rewrite not_elem_of_cons in Hpre. destruct Hpre as [Hx Hpre].
    destruct (Ascii.eqb_spec x c); [congruence|]. by rewrite IH.
Qed.

Lemma first_occ_lt c s i : first_occ c s = Some i → i < length s.
Proof.
  intros H. apply first_occ_Some in H as [H _]. by apply lookup_lt_Some in H.
Qed.

Lemma peek_drop buf p i : peek (drop p buf) i = peek buf (p + i).
Proof. unfold peek. by rewrite lookup_drop. Qed.

Lemma peek_until_nul M i : i < length (until_nul M) → peek M i = peek (until_nul M) i.
Proof.
  intros Hi. destruct (until_nul_split M) as (rest & HM & _).
  rewrite HM at 1. unfold peek. by rewrite lookup_app_l.
Qed.

Lemma peek_Some s i c : s !! i = Some c → peek s i = c.
Proof. unfold peek. by intros ->. Qed.

Lemma peek_cstr buf p k :
  k ≤ length (cstr buf p) → peek buf (p + k) = peek (cstr buf p) k.
Proof.
  unfold cstr. rewrite <- peek_drop. intros Hk.
  destruct (decide (k < length (until_nul (drop p buf)))) as [Hlt|Hge].
  { by apply peek_until_nul. }
  assert (k = length (until_nul (drop p buf))) as Hk' by lia.
  destruct (until_nul_split (drop p buf)) as (rest & HM & Hrest).
  unfold peek. rewrite HM at 1. rewrite lookup_app_r by lia.
  rewrite (lookup_ge_None_2 (until_nul _)) by lia.
  replace (k - _) with 0 by lia.
  by destruct Hrest as [->|(tl & ->)].
Qed.

(** ** Facts about [atoi] *)

Lemma atoi_digits_app a rest acc :
  ends_number rest → atoi_digits (a ++ rest) acc = atoi_digits a acc.
Proof.
  intros Hrest. revert acc. induction a as [|x a IH]; intros acc; simpl.
  - destruct rest as [|c tl]; [done|]. simpl in *.
    unfold stopper in Hrest. rewrite !andb_true_iff in Hrest.
    destruct Hrest as (_ & Hd). apply bool_decide_eq_true in Hd. by rewrite Hd.
  - destruct (digit_val x); [apply IH|done].
Qed.

Lemma atoi_str_app a rest :
  ends_number rest → atoi_str (a ++ rest) = atoi_str a.
Proof.
  intros Hrest. induction a as [|x a IH]; simpl.
  - destruct rest as [|c tl]; [done|]. simpl in *.
    pose proof Hrest as Hst.
    unfold stopper in Hrest. rewrite !andb_true_iff, !negb_true_iff in Hrest.
    destruct Hrest as (((-> & ->) & ->) & Hd).
    apply bool_decide_eq_true in Hd. by rewrite Hd.
  - destruct (isspace x); [done|].
    destruct (Ascii.eqb x "-"); [by rewrite atoi_digits_app|].
    destruct (Ascii.eqb x "+"); [by rewrite atoi_digits_app|].
    destruct (digit_val x); [by rewrite atoi_digits_app|done].
Qed.

Lemma ends_number_cstr_rest rest :
  rest = [] ∨ (∃ tl, rest = NUL :: tl) → ends_number rest.
Proof. by intros [->|(tl & ->)]. Qed.

Lemma atoi_cstr buf p k :
  k ≤ length (cstr buf p) → atoi buf (p + k) = atoi_str (drop k (cstr buf p)).
Proof.
  unfold atoi, cstr. intros Hk. rewrite <- drop_drop.
  destruct (until_nul_split (drop p buf)) as (rest & HM & Hrest).
  rewrite HM at 1. rewrite drop_app_le by done.
  apply atoi_str_app. by apply ends_number_cstr_rest.
Qed.

Lemma upto_split c s :
  ∃ rest, s = upto c s ++ rest ∧ (rest = [] ∨ ∃ tl, rest = c :: tl).
Proof.
  induction s as [|x s IH]; simpl.
  - exists []. auto.
  - destruct (Ascii.eqb_spec x c) as [->|Hx].
    + exists (c :: s). eauto.
    + destruct IH as (rest & Hs & Hrest). exists rest. split; [|done].
      simpl. by rewrite <- Hs.
Qed.

Lemma atoi_str_upto c s : stopper c = true → atoi_str (upto c s) = atoi_str s.
Proof.
  intros Hc. destruct (upto_split c s) as (rest & Hs & Hrest).
  rewrite Hs at 2. symmetry. apply atoi_str_app.
  by destruct Hrest as [->|(tl & ->)].
Qed.

(** ** The option parser reads the text of the body *)

Section parser.
Context {T : Type} `{!Stream T}.

Lemma directive_marker_lt c body j :
  directive_marker c body = Some j → j < length body.
Proof.
  unfold directive_marker.
  destruct (first_occ c body) as [i|] eqn:Hi; [|done].
  destruct (_ && _).
  - destruct (first_occ c (drop (i + 1) body)) as [k|] eqn:Hk; [|done].
    simpl. intros [= <-]. apply first_occ_lt in Hk.
    rewrite length_drop in Hk. lia.
  - intros [= <-]. by eapply first_occ_lt.
Qed.

(** The [strchr] / [setopt] pair of the source finds the marker. *)
Lemma setopt_marker (c : ascii) (f : nat → T → T) buf p out :
  c ≠ NUL →
  match strchr buf p c with
  | Some opt => setopt buf p opt f out
  | None => out
  end =
  match directive_marker c (cstr buf p) with
  | Some j => f (p + j + 1) out
  | None => out
  end.
Proof.
  intros Hc. unfold strchr, directive_marker.
  rewrite scan_first_occ by done. fold (cstr buf p).
  destruct (first_occ c (cstr buf p)) as [i|] eqn:Hi; simpl; [|done].
  pose proof (first_occ_lt _ _ _ Hi) as Hlt.
  apply first_occ_Some in Hi as [Hci _].
  unfold setopt.
  assert (peek buf (p + i) = c) as ->.
  { rewrite peek_cstr by lia. by apply peek_Some. }
  assert (bool_decide (p < p + i) && Ascii.eqb (peek buf (p + i - 1)) "f"
          = bool_decide (0 < i) && Ascii.eqb (peek (cstr buf p) (i - 1)) "f") as ->.
  { destruct i as [|i].
    - rewrite !bool_decide_eq_false_2 by lia. done.
    - rewrite !bool_decide_eq_true_2 by lia. simpl.
      replace (p + S i - 1) with (p + i) by lia.
      replace (i - 0) with i by lia.
      by rewrite peek_cstr by lia. }
  destruct (_ && _); [|done].
  unfold strchr. rewrite scan_first_occ by done.
  replace (p + i + 1) with (p + (i + 1)) by lia.
  rewrite <- drop_drop. rewrite until_nul_drop by (fold (cstr buf p); lia).
  fold (cstr buf p).
  destruct (first_occ c (drop (i + 1) (cstr buf p))) as [k|]; simpl; [|done].
  f_equal. lia.
Qed.

Lemma opt_w_body buf p out : opt_w buf p out = body_w (cstr buf p) out.
Proof.
  unfold opt_w, body_w.
  rewrite (setopt_marker "w" (λ o, setw (atoi buf o))) by done.
  destruct (directive_marker "w" (cstr buf p)) as [j|] eqn:Hj; [|done].
  apply directive_marker_lt in Hj.
  replace (p + j + 1) with (p + (j + 1)) by lia.
  by rewrite atoi_cstr by lia.
Qed.

Lemma opt_p_body buf p out : opt_p buf p out = body_p (cstr buf p) out.
Proof.
  unfold opt_p, body_p.
  rewrite (setopt_marker "p" (λ o, setprecision (atoi buf o))) by done.
  destruct (directive_marker "p" (cstr buf p)) as [j|] eqn:Hj; [|done].
  apply directive_marker_lt in Hj.
  replace (p + j + 1) with (p + (j + 1)) by lia.
  by rewrite atoi_cstr by lia.
Qed.

Lemma opt_m_body buf p out : opt_m buf p out = body_m (cstr buf p) out.
Proof.
  unfold opt_m, body_m.
  rewrite (setopt_marker "m" (λ o, set_notation (peek buf o))) by done.
  destruct (directive_marker "m" (cstr buf p)) as [j|] eqn:Hj; [|done].
  apply directive_marker_lt in Hj.
  replace (p + j + 1) with (p + (j + 1)) by lia.
  by rewrite peek_cstr by lia.
Qed.

Lemma opt_f_body buf p out : opt_f buf p out = body_f (cstr buf p) out.
Proof.
  unfold opt_f, body_f, strchr. rewrite scan_first_occ by done.
  fold (cstr buf p).
  destruct (first_occ "f" (cstr buf p)) as [i|] eqn:Hi; simpl; [|done].
  apply first_occ_lt in Hi.
  replace (p + i + 1) with (p + (i + 1)) by lia.
  by rewrite peek_cstr by lia.
Qed.

Lemma opt_L_body buf p out : opt_L buf p out = body_L (cstr buf p) out.
Proof.
  unfold opt_L, body_L, strchr. rewrite scan_first_occ by done.
  fold (cstr buf p).
  destruct (first_occ "L" (cstr buf p)) as [i|] eqn:Hi; simpl.
  - rewrite bool_decide_eq_true_2; [done|].
    apply first_occ_Some in Hi as [Hi _]. by eapply list_elem_of_lookup_2.
  - rewrite bool_decide_eq_false_2; [done|]. by apply first_occ_None.
Qed.

Lemma opt_R_body buf p out : opt_R buf p out = body_R (cstr buf p) out.
Proof.
  unfold opt_R, body_R, strchr. rewrite scan_first_occ by done.
  fold (cstr buf p).
  destruct (first_occ "R" (cstr buf p)) as [i|] eqn:Hi; simpl.
  - rewrite bool_decide_eq_true_2; [done|].
    apply first_occ_Some in Hi as [Hi _]. by eapply list_elem_of_lookup_2.
  - rewrite bool_decide_eq_false_2; [done|]. by apply first_occ_None.
Qed.

(** [setOpts] reads nothing but the C string at [optstr]. *)
Lemma setOpts_body out buf optstr :
  setOpts out buf optstr = apply_body out (cstr buf optstr).
Proof.
  unfold setOpts, apply_body.
  by rewrite opt_w_body, opt_p_body, opt_m_body, opt_f_body, opt_L_body,
    opt_R_body.
Qed.

End parser.

Section parser_claims.
Context {T : Type} `{!Stream T}.

(** C6.  Scanning a placeholder body for [w], [p] or [m]: when the character
    just before the first occurrence of the letter is [f], that occurrence
    counts as the argument of a fill directive and the next occurrence of the
    same letter is the marker, the argument being read after it; with no
    later occurrence the directive is not applied.  Otherwise the first
    occurrence is the marker.  ([body_w], [body_p] and [body_m] are this
    reading on the text of the body, through [directive_marker].) *)
Theorem setopt_rescans_after_fill (out : T) (buf : list ascii) (optstr : nat) :
  opt_w buf optstr out = body_w (cstr buf optstr) out ∧
  opt_p buf optstr out = body_p (cstr buf optstr) out ∧
  opt_m buf optstr out = body_m (cstr buf optstr) out.
Proof.
  split; [apply opt_w_body|]. split; [apply opt_p_body|apply opt_m_body].
Qed.

Lemma set_notation_upto (s : list ascii) (out : T) :
  set_notation (peek (upto "m" s) 0) out = set_notation (peek s 0) out.
Proof.
  destruct s as [|x s]; [done|]. simpl.
  by destruct (Ascii.eqb_spec x "m") as [->|_].
Qed.

End parser_claims.

(** ** [print] *)

Section print_facts.
Context {T V : Type} `{!Stream T, !Put T V}.

Lemma print_h_foldl (out : T) (args : list V) :
  print_h out args = foldl put out args.
Proof.
  revert out. induction args as [|a rest IH]; intros out; [done|].
  simpl. destruct rest; [done|]. by rewrite IH.
Qed.

Lemma fprint_h_null (out : T) (buf : list ascii) (args : list V) :
  (fprint_h out buf None args).1 = print_h out args.
Proof.
  revert out. induction args as [|a rest IH]; intros out; [done|].
  simpl. destruct rest; [done|]. apply IH.
Qed.

End print_facts.

Lemma rep_ext (o o' : ostream) (v : value) :
  os_width o = os_width o' → os_fill o = os_fill o' →
  os_adjust o = os_adjust o' → rep o v = rep o' v.
Proof. unfold rep, padded. by intros -> -> ->. Qed.

Lemma foldl_put_text (vs : list value) (o : ostream) :
  os_text (foldl put o vs) = os_text o ++ concat (reps o vs).
Proof.
  destruct vs as [|v vs]; simpl; [by rewrite app_nil_r|].
  rewrite app_assoc.
  change (os_text o ++ rep o v) with (os_text (o << v)).
  assert (∀ o', os_width o' = 0%Z → os_fill o' = os_fill o →
    os_adjust o' = os_adjust o →
    os_text (foldl put o' vs) =
      os_text o' ++ concat (map (rep (with_width 0 o)) vs)) as Hrest.
  { induction vs as [|v' vs IH]; intros o' Hw Hf Ha; simpl.
    - by rewrite app_nil_r.
    - rewrite IH by done. simpl. rewrite <- app_assoc. do 2 f_equal.
      by apply rep_ext. }
  by apply Hrest.
Qed.

(** C1.  [print] inserts the values in argument order with the stream's own
    [<<] and writes nothing else: the text appended is the concatenation of
    the values' representations, with no separator and nothing before or
    after; with no value the stream is left as it is. *)
Theorem print_concatenates (out : ostream) (vs : list value) :
  print out vs = foldl put out vs ∧
  os_text (print out vs) = os_text out ++ concat (reps out vs) ∧
  print out ([] : list value) = out.
Proof.
  unfold print. rewrite print_h_foldl.
  split; [done|]. split; [apply foldl_put_text|done].
Qed.

(** ** [checkSetOpts] *)

Lemma scan_Some c s i : scan c s = Some i → s !! i = Some c.
Proof.
  revert i. induction s as [|x s IH]; simpl; intros i; [done|].
  destruct (Ascii.eqb_spec x c) as [->|_]; [by intros [= <-]|].
  destruct (Ascii.eqb x NUL); [done|].
  destruct (scan c s) as [j|]; simpl; [|done].
  intros [= <-]. by apply IH.
Qed.

Lemma strchr_Some buf p c i : strchr buf p c = Some i → buf !! i = Some c.
Proof.
  unfold strchr. destruct (scan c (drop p buf)) as [j|] eqn:Hj; simpl; [|done].
  intros [= <-]. apply scan_Some in Hj. by rewrite lookup_drop in Hj.
Qed.

Lemma strchr_found buf p l c rest :
  c ≠ NUL → c ∉ l → NUL ∉ l → drop p buf = l ++ c :: rest →
  strchr buf p c = Some (p + length l).
Proof.
  intros Hc Hcl Hnl Hbuf. unfold strchr. rewrite Hbuf.
  assert (scan c (l ++ c :: rest) = Some (length l)) as ->; [|done].
  clear Hbuf. induction l as [|x l IH]; simpl.
  - by destruct (Ascii.eqb_spec c c).
  - rewrite not_elem_of_cons in Hcl, Hnl.
    destruct Hcl as [Hxc Hcl], Hnl as [Hxn Hnl].
    destruct (Ascii.eqb_spec x c); [congruence|].
    destruct (Ascii.eqb_spec x NUL); [congruence|].
    by rewrite IH.
Qed.

Lemma strchr_absent buf p c :
  c ≠ NUL → c ∉ cstr buf p → strchr buf p c = None.
Proof.
  intros Hc Hn. unfold strchr. rewrite scan_first_occ by done.
  apply first_occ_None in Hn. unfold cstr in Hn. by rewrite Hn.
Qed.

Lemma insert_middle (l1 l2 : list ascii) (x y : ascii) (i : nat) :
  i = length l1 → <[i:=x]> (l1 ++ y :: l2) = l1 ++ x :: l2.
Proof.
  intros ->. rewrite <- (Nat.add_0_r (length l1)). by rewrite insert_app_r.
Qed.

Lemma cstr_middle (l1 l l2 : list ascii) (p : nat) :
  p = length l1 → NUL ∉ l → cstr (l1 ++ l ++ NUL :: l2) p = l.
Proof.
  intros -> Hl. unfold cstr. rewrite drop_app_length.
  apply until_nul_app; eauto.
Qed.

Section checkSetOpts_facts.
Context {T V : Type} `{!Stream T, !Put T V}.

Lemma checkSetOpts_no_brace (out : T) (buf : list ascii) (f : nat) :
  "{" ∉ cstr buf f → "}" ∉ cstr buf f →
  checkSetOpts out buf (Some f) = (put_cstr out (cstr buf f), buf, None).
Proof.
  intros H1 H2. unfold checkSetOpts.
  by rewrite !strchr_absent by done.
Qed.

(** One step on a well-formed placeholder: the text [lit] before the brace
    is inserted, the directives of [body] are applied, both braces are left
    as [char(1)] and the pointer moves past the closing brace. *)
Lemma checkSetOpts_placeholder (out : T) (pre lit body rest : list ascii) :
  "{" ∉ lit → "}" ∉ lit → NUL ∉ lit → "}" ∉ body → NUL ∉ body →
  checkSetOpts out (pre ++ lit ++ "{" :: body ++ "}" :: rest) (Some (length pre)) =
    (apply_body (put_cstr out lit) body,
     pre ++ lit ++ SOH :: body ++ SOH :: rest,
     Some (length pre + length lit + length body + 2)).
Proof.
  intros Hl1 Hl2 Hl0 Hb2 Hb0. unfold checkSetOpts.
  rewrite (strchr_found _ _ lit "{" (body ++ "}" :: rest)); [|done..|].
  2:{ by rewrite drop_app_length. }
  rewrite (strchr_found _ _ (lit ++ "{" :: body) "}" rest); [|done|..].
  2:{ rewrite not_elem_of_app, not_elem_of_cons. done. }
  2:{ rewrite not_elem_of_app, not_elem_of_cons. done. }
  2:{ rewrite drop_app_length. by rewrite <- app_assoc. }
  simpl poke. rewrite length_app. simpl length.
  assert (∀ x y z1 z2 : ascii,
    <[length pre + (length lit + S (length body)):=x]>
      (<[length pre + length lit:=y]>
        (pre ++ lit ++ z1 :: body ++ z2 :: rest)) =
    pre ++ lit ++ y :: body ++ x :: rest) as Hpoke.
  { intros x y z1 z2.
    rewrite (app_assoc pre lit), (insert_middle (pre ++ lit))
      by (rewrite length_app; lia).
    replace ((pre ++ lit) ++ y :: body ++ z2 :: rest)
      with (((pre ++ lit) ++ y :: body) ++ z2 :: rest)
      by (by rewrite <- !app_assoc).
    rewrite insert_middle by (rewrite !length_app; simpl; lia).
    by rewrite <- !app_assoc. }
  rewrite !Hpoke.
  rewrite cstr_middle by done.
  rewrite setOpts_body.
  replace (pre ++ lit ++ NUL :: body ++ NUL :: rest)
    with ((pre ++ lit ++ [NUL]) ++ body ++ NUL :: rest)
    by (by rewrite <- !app_assoc).
  rewrite cstr_middle; [|rewrite !length_app; simpl; lia|done].
  simpl. do 2 f_equal. lia.
Qed.

Lemma fprint_h_no_brace (out : T) (buf : list ascii) (vs : list V) :
  "{" ∉ cstr buf 0 → "}" ∉ cstr buf 0 →
  (fprint_h out buf (Some 0) vs).1 = print_h (put_cstr out (cstr buf 0)) vs.
Proof.
  intros H1 H2. destruct vs as [|a rest]; cbn [fprint_h].
  - unfold fprint_h0. by rewrite checkSetOpts_no_brace.
  - rewrite checkSetOpts_no_brace by done.
    destruct rest; [done|]. by rewrite fprint_h_null.
Qed.

End checkSetOpts_facts.

(** ** [fprint] on format strings without braces *)

Lemma cstr_terminated (s : list ascii) : NUL ∉ s → cstr (s ++ [NUL]) 0 = s.
Proof. intros Hs. unfold cstr. rewrite drop_0. apply until_nul_app; eauto. Qed.

Lemma strlen_terminated (s : list ascii) : NUL ∉ s → strlen (s ++ [NUL]) = length s.
Proof. intros Hs. unfold strlen. rewrite until_nul_app; eauto. Qed.

Section no_brace.
Context {T V : Type} `{!Stream T, !Put T V}.

Lemma fprint_ptr_no_brace (out : T) (s : list ascii) (vs : list V) :
  "{" ∉ s → "}" ∉ s → NUL ∉ s →
  fprint_ptr out s vs = print (put_cstr out s) vs.
Proof.
  intros H1 H2 H0. unfold fprint_ptr. rewrite strlen_terminated by done.
  replace (length s + 1) with (S (length s)) by lia.
  rewrite take_ge by (rewrite length_app; simpl; lia).
  rewrite fprint_h_no_brace; by rewrite cstr_terminated.
Qed.

Lemma fprint_lit_no_brace (out : T) (x : ascii) (s : list ascii) (vs : list V) :
  "{" ∉ x :: s → "}" ∉ x :: s → NUL ∉ x :: s →
  fprint_lit out (x :: s) vs = print (put_cstr out (x :: s)) vs.
Proof.
  intros H1 H2 H0. unfold fprint_lit.
  replace (Nat.eqb (length ((x :: s) ++ [NUL])) 1) with false.
  2:{ symmetry. apply Nat.eqb_neq. rewrite length_app. simpl. lia. }
  rewrite fprint_h_no_brace; by rewrite cstr_terminated.
Qed.

Lemma fprint_lit_empty (out : T) (vs : list V) :
  fprint_lit out [] vs = print out vs.
Proof. done. Qed.

End no_brace.

(** C4, as the code has it.  For a format string that is not empty and has
    neither brace character, the text [fprint] appends is the format string
    followed by the values, each of them, the format string first, as [<<]
    writes it (the format string verbatim when no field width is pending),
    and nothing else.  For the empty array the text appended is that of the
    values alone. *)
Theorem fprint_without_braces (out : ostream) (s : list ascii) (vs : list value) :
  "{" ∉ s → "}" ∉ s → NUL ∉ s → s ≠ [] →
  os_text (fprint_lit out s vs) =
    os_text out ++ concat (reps out (VStr s :: vs)) ∧
  os_text (fprint_ptr out s vs) =
    os_text out ++ concat (reps out (VStr s :: vs)) ∧
  os_text (fprint_lit out [] vs) = os_text out ++ concat (reps out vs).
Proof.
  intros H1 H2 H0 Hne.
  assert (os_text (print (put_cstr out s) vs) =
          os_text out ++ concat (reps out (VStr s :: vs))) as Htext.
  { unfold print. rewrite print_h_foldl.
    change (foldl put (put_cstr out s) vs) with (foldl put out (VStr s :: vs)).
    apply foldl_put_text. }
  split; [|split].
  - destruct s as [|x s]; [done|]. by rewrite fprint_lit_no_brace.
  - by rewrite fprint_ptr_no_brace.
  - rewrite fprint_lit_empty. unfold print.
    rewrite print_h_foldl. apply foldl_put_text.
Qed.

Lemma fprint_without_braces_witness :
  os_text (fprint_lit (setw 4 os_init) (chars "ab") [VInt 5]) =
    os_text (setw 4 os_init) ++
    concat (reps (setw 4 os_init) [VStr (chars "ab"); VInt 5]) ∧
  os_text (fprint_ptr (setw 4 os_init) (chars "ab") [VInt 5]) =
    os_text (setw 4 os_init) ++
    concat (reps (setw 4 os_init) [VStr (chars "ab"); VInt 5]) ∧
  os_text (fprint_lit (setw 4 os_init) [] [VInt 5]) =
    os_text (setw 4 os_init) ++ concat (reps (setw 4 os_init) [VInt 5]).
Proof.
  apply (fprint_without_braces (setw 4 os_init) (chars "ab") [VInt 5]);
    compute_done.
Defined.

(** C4 as stated fails: ["a}b"] has no placeholder, yet the value is written
    where the stray closing brace stood and the brace itself is not. *)
Lemma stray_brace_splits_literal :
  ¬ has_placeholder (chars "a}b") ∧
  os_text (fprint_lit os_init (chars "a}b") [VInt 5]) = chars "a5b" ∧
  os_text (fprint_lit os_init (chars "a}b") [VInt 5]) ≠
    os_text os_init ++ chars "a}b" ++ concat (reps os_init [VInt 5]).
Proof.
  split; [|split; [reflexivity|discriminate]].
  intros (i & j & _ & Hi & _).
  destruct i as [|[|[|i]]]; discriminate.
Qed.

Lemma rep_no_width (o : ostream) (v : value) :
  (os_width o ≤ 0)%Z → rep o v = rep (with_width 0 o) v.
Proof.
  intros Hw. unfold rep, padded. simpl.
  replace (Z.to_nat (os_width o - _)) with 0 by lia.
  by replace (Z.to_nat (0 - _)) with 0 by lia.
Qed.

Lemma put_cstr_no_width (o : ostream) (s : list ascii) :
  (os_width o ≤ 0)%Z → put_cstr o s = with_width 0 (with_text (os_text o ++ s) o).
Proof.
  intros Hw. simpl. unfold emit, padded. simpl.
  replace (Z.to_nat (os_width o - _)) with 0 by lia.
  simpl. rewrite app_nil_r. by destruct (os_adjust o).
Qed.

(** On a stream with no field width pending the text is the format string
    followed by the values. *)
Lemma fprint_without_braces_text (out : ostream) (s : list ascii) (vs : list value) :
  "{" ∉ s → "}" ∉ s → NUL ∉ s → (os_width out ≤ 0)%Z →
  os_text (fprint_ptr out s vs) = os_text out ++ s ++ concat (map (rep out) vs) ∧
  os_text (fprint_lit out s vs) = os_text out ++ s ++ concat (map (rep out) vs).
Proof.
  intros H1 H2 H0 Hw.
  assert (∀ o, (os_width o ≤ 0)%Z → os_fill o = os_fill out →
    os_adjust o = os_adjust out →
    os_text (print o vs) = os_text o ++ concat (map (rep out) vs)) as Hprint.
  { intros o Hwo Hf Ha. unfold print. rewrite print_h_foldl, foldl_put_text.
    f_equal. destruct vs as [|v vs]; [done|]. simpl.
    rewrite (rep_no_width o) by done.
    rewrite (rep_ext (with_width 0 o) (with_width 0 out)) by done.
    rewrite <- (rep_no_width out) by done. do 2 f_equal.
    apply map_ext. intros v'. rewrite (rep_no_width out) by done.
    by apply rep_ext. }
  rewrite fprint_ptr_no_brace by done.
  assert (os_text (print (put_cstr out s) vs) =
          os_text out ++ s ++ concat (map (rep out) vs)) as Hs.
  { rewrite put_cstr_no_width by done. rewrite Hprint by done.
    simpl. by rewrite <- app_assoc. }
  split; [done|]. destruct s as [|x s].
  - rewrite fprint_lit_empty. by rewrite Hprint.
  - by rewrite fprint_lit_no_brace.
Qed.

(** ** The empty format string *)

(** C2 at the failing input: a stream with a field width of 3 pending, the
    empty format string given as a [char] pointer, and the value 5.  The
    pointer overload copies the empty string and inserts it before the
    value, which uses up the width; [print] and the overload for the empty
    array give the width to the value. *)
Theorem fprint_ptr_empty_spends_width :
  let out := setw 3 os_init in
  os_text (fprint_ptr out [] [VInt 5]) = chars "   5" ∧
  os_text (print out [VInt 5]) = chars "  5" ∧
  fprint_lit out [] [VInt 5] = print out [VInt 5].
Proof. by vm_compute. Qed.

(** Without a pending width the two agree on the text. *)
Lemma fprint_ptr_empty_no_width (out : ostream) (vs : list value) :
  (os_width out ≤ 0)%Z →
  os_text (fprint_ptr out [] vs) = os_text (print out vs).
Proof.
  intros Hw.
  destruct (fprint_without_braces_text out [] vs) as [-> _];
    [apply not_elem_of_nil..|done|].
  unfold print. rewrite print_h_foldl, foldl_put_text. simpl. f_equal.
  destruct vs as [|v vs]; [done|]. simpl. do 2 f_equal.
  apply map_ext. intros v'. by apply rep_no_width.
Qed.

(** ** Format text after the last value *)

(** C3 at the failing input: after the value 5 the format ["{}a{}b"] still
    has the text ["a{}b"]; the one step the empty pack makes writes the
    [a] and stops at the brace, so the [b] is never written. *)
Theorem trailing_text_dropped :
  os_text (fprint_lit os_init (chars "{}a{}b") [VInt 5]) = chars "5a".
Proof. by vm_compute. Qed.

(** ** The buffer after a step *)

(** C8 as stated fails: after the step the brace bytes hold [char(1)]. *)
Lemma braces_not_restored :
  let buf := chars "{}" ++ [NUL] in
  let buf' := (checkSetOpts os_init buf (Some 0)).1.2 in
  buf' = [SOH; SOH; NUL] ∧ buf' !! 0 ≠ Some "{" ∧ buf' !! 1 ≠ Some "}".
Proof. by vm_compute. Qed.

Lemma length_poke p c buf : length (poke p c buf) = length buf.
Proof. destruct p; simpl; [apply length_insert|done]. Qed.

Lemma lookup_poke p c buf i :
  (∀ j, p = Some j → j < length buf) →
  poke p c buf !! i = if bool_decide (p = Some i) then Some c else buf !! i.
Proof.
  intros Hp. destruct p as [j|]; simpl.
  - specialize (Hp j eq_refl). destruct (decide (j = i)) as [->|Hne].
    + rewrite bool_decide_eq_true_2 by done. by apply list_lookup_insert_eq.
    + rewrite bool_decide_eq_false_2 by congruence.
      by apply list_lookup_insert_ne.
  - done.
Qed.

Lemma lookup_poke2 b1 b2 c buf i :
  (∀ j, b1 = Some j → j < length buf) →
  (∀ j, b2 = Some j → j < length buf) →
  poke b2 c (poke b1 c buf) !! i =
    if bool_decide (b1 = Some i ∨ b2 = Some i) then Some c else buf !! i.
Proof.
  intros H1 H2. rewrite lookup_poke by (by rewrite length_poke).
  rewrite lookup_poke by done.
  destruct (decide (b1 = Some i)) as [E1|E1], (decide (b2 = Some i)) as [E2|E2];
    rewrite ?(bool_decide_eq_true_2 _ E1), ?(bool_decide_eq_true_2 _ E2),
      ?(bool_decide_eq_false_2 _ E1), ?(bool_decide_eq_false_2 _ E2).
  1-3: by rewrite bool_decide_eq_true_2 by tauto.
  by rewrite bool_decide_eq_false_2 by tauto.
Qed.

(** C8, as the code has it.  A step overwrites the two delimiters it found
    with the terminator while it writes the literal text and parses the
    options, and leaves [char(1)] in both afterwards, not the braces; every
    other byte of the buffer, and its length, are unchanged. *)
Theorem checkSetOpts_marks_braces {T : Type} `{!Stream T}
    (out : T) (buf : list ascii) (f : nat) :
  let b1 := strchr buf f "{" in
  let b2 := strchr buf f "}" in
  let scanned := poke b2 NUL (poke b1 NUL buf) in
  (∀ i, scanned !! i =
        if bool_decide (b1 = Some i ∨ b2 = Some i) then Some NUL else buf !! i) ∧
  (checkSetOpts out buf (Some f)).1.1 =
    match b1 with
    | Some b => setOpts (put_cstr out (cstr scanned f)) scanned (b + 1)
    | None => put_cstr out (cstr scanned f)
    end ∧
  length (checkSetOpts out buf (Some f)).1.2 = length buf ∧
  (∀ i, (checkSetOpts out buf (Some f)).1.2 !! i =
        if bool_decide (b1 = Some i ∨ b2 = Some i) then Some SOH else buf !! i).
Proof.
  intros b1 b2 scanned.
  assert (∀ j, b1 = Some j → j < length buf) as H1.
  { intros j Hj. apply strchr_Some in Hj. by eapply lookup_lt_Some. }
  assert (∀ j, b2 = Some j → j < length buf) as H2.
  { intros j Hj. apply strchr_Some in Hj. by eapply lookup_lt_Some. }
  assert (length scanned = length buf) as Hlen.
  { unfold scanned. by rewrite !length_poke. }
  split; [intros i; by apply lookup_poke2|].
  split; [done|].
  unfold checkSetOpts. fold b1 b2. fold scanned. cbn [fst snd].
  split; [by rewrite !length_poke|].
  intros i. rewrite lookup_poke2 by (rewrite Hlen; done).
  unfold scanned. rewrite lookup_poke2 by done.
  by case_bool_decide.
Qed.

(** ** The scenario [fprint(out, "{f*w6}", 5)] *)

(** C7.  The step before the value leaves the fill character [*] and the
    width 6 in the stream (after inserting the empty text in front of the
    brace, which takes whatever width was pending); the value is then
    written padded with [*] to width 6, on the left unless the stream is
    set to left adjustment, and the width is back to 0. *)
Theorem fill_star_width_six (out : ostream) :
  let mid := (checkSetOpts out (chars "{f*w6}" ++ [NUL]) (Some 0)).1.1 in
  let res := fprint_lit out (chars "{f*w6}") [VInt 5] in
  os_fill mid = "*" ∧ os_width mid = 6%Z ∧
  os_text mid = os_text out ++ replicate (Z.to_nat (os_width out)) (os_fill out) ∧
  os_text res = os_text mid ++
    match os_adjust out with
    | adj_left => chars "5*****"
    | _ => chars "*****5"
    end ∧
  os_fill res = "*" ∧ os_width res = 0%Z.
Proof.
  intros mid res.
  pose proof (checkSetOpts_placeholder out [] [] (chars "f*w6") [NUL])
    as Hstep.
  assert (checkSetOpts out (chars "{f*w6}" ++ [NUL]) (Some 0) =
    (with_fill "*" (with_width 6 (put_cstr out [])),
     SOH :: chars "f*w6" ++ [SOH; NUL], Some 6)) as Hmid.
  { apply Hstep; compute_done. }
  assert (res = (with_fill "*" (with_width 6 (put_cstr out []))) << VInt 5) as ->.
  { unfold res, fprint_lit. cbn [length app chars list_ascii_of_string Nat.eqb].
    cbn [fprint_h]. 
    change (?a :: ?b :: ?c) with (chars "{f*w6}" ++ [NUL]) at 1.
    rewrite Hmid. unfold fprint_h0.
    rewrite checkSetOpts_no_brace; [|compute_done..].
    cbn [fst]. change (cstr _ 6) with ([] : list ascii).
    rewrite put_cstr_no_width by done. by rewrite app_nil_r. }
  unfold mid. rewrite Hmid. cbn [fst].
  destruct out as [t w p c fl adj]. simpl.
  unfold padded. simpl. rewrite Z.sub_0_r.
  destruct adj; simpl; rewrite ?app_nil_r; done.
Qed.

(** ** A fill directive at the end of the body *)

Lemma os_fill_body_L body (o : ostream) : os_fill (body_L body o) = os_fill o.
Proof. unfold body_L. by destruct (bool_decide _). Qed.

Lemma os_fill_body_R body (o : ostream) : os_fill (body_R body o) = os_fill o.
Proof. unfold body_R. by destruct (bool_decide _). Qed.

Lemma body_f_last (b : list ascii) (o : ostream) :
  "f" ∉ b → body_f (b ++ ["f"]) o = setfill NUL o.
Proof.
  intros Hb. unfold body_f. rewrite first_occ_app by done.
  unfold peek. by rewrite lookup_ge_None_2 by (rewrite length_app; simpl; lia).
Qed.

(** C10 as stated fails: in ["{ff}"] the body ends in [f], and the fill
    character becomes the second [f]. *)
Lemma double_f_fills_with_f :
  last (chars "ff") = Some "f" ∧
  os_fill (fprint_lit os_init (chars "{ff}") ([] : list value)) = "f" ∧
  os_fill (fprint_lit os_init (chars "{ff}") ([] : list value)) ≠ NUL.
Proof. by vm_compute. Qed.

(** C10, as the code has it.  When the only [f] of a placeholder body is its
    last character, the fill directive is applied all the same and reads the
    byte after the [f], which is the terminator standing in for the closing
    brace during the scan: the fill character becomes [NUL]. *)
Theorem lone_f_fills_with_nul (out : ostream) (pre lit b rest : list ascii) :
  "{" ∉ lit → "}" ∉ lit → NUL ∉ lit → "}" ∉ b → NUL ∉ b → "f" ∉ b →
  let buf := pre ++ lit ++ "{" :: (b ++ ["f"]) ++ "}" :: rest in
  os_fill (checkSetOpts out buf (Some (length pre))).1.1 = NUL.
Proof.
  intros Hl1 Hl2 Hl0 Hb2 Hb0 Hbf buf. unfold buf.
  rewrite checkSetOpts_placeholder; [|done..| |].
  2,3: rewrite not_elem_of_app, not_elem_of_cons;
       split; [done|]; split; [done|apply not_elem_of_nil].
  cbn [fst]. unfold apply_body.
  by rewrite os_fill_body_R, os_fill_body_L, body_f_last.
Qed.

Lemma lone_f_fills_with_nul_witness :
  os_fill (checkSetOpts os_init (chars "{f}" ++ [NUL]) (Some 0)).1.1 = NUL.
Proof.
  apply (lone_f_fills_with_nul os_init [] [] [] [NUL]); compute_done.
Defined.

Lemma first_occ_skip c l X :
  c ∉ l → first_occ c (l ++ X) = (λ n, length l + n) <$> first_occ c X.
Proof.
  induction l as [|x l IH]; simpl; intros Hl.
  - by destruct (first_occ c X).
  - rewrite not_elem_of_cons in Hl. destruct Hl as [Hx Hl].
    destruct (Ascii.eqb_spec x c); [congruence|].
    rewrite IH by done. by destruct (first_occ c X).
Qed.

Lemma plain_not_letter c (a : list ascii) :
  c ∈ letters → Forall plain a → c ∉ a.
Proof.
  intros Hc Ha Hin. rewrite Forall_forall in Ha. apply (Ha c Hin).
  by apply list_elem_of_further.
Qed.

Lemma body_of_cons d ds : body_of (d :: ds) = letter d :: args d ++ body_of ds.
Proof. done. Qed.

Lemma body_of_cons_text d ds : body_of (d :: ds) = text d ++ body_of ds.
Proof. done. Qed.

Lemma first_occ_body c ds :
  c ∈ letters → plain_args ds → first_occ c (body_of ds) = offset_of c ds.
Proof.
  intros Hc Hds. induction Hds as [|d ds Hd Hds IH]; [done|].
  rewrite body_of_cons. cbn [first_occ offset_of].
  destruct (Ascii.eqb (letter d) c); [done|].
  rewrite first_occ_skip by (by apply plain_not_letter).
  rewrite IH. by destruct (offset_of c ds).
Qed.

Lemma last_of_text_not_f d :
  Forall plain (args d) → peek (text d) (length (args d)) ≠ "f".
Proof.
  intros Hd.
  assert (∀ x a, Forall plain a → a ≠ [] → peek (x :: a) (length a) ≠ "f") as Hne.
  { intros x a Ha Hnil. destruct a as [|y a]; [done|]. simpl.
    destruct ((y :: a) !! length a) as [z|] eqn:Hz.
    - pose proof (list_elem_of_lookup_2 _ _ _ Hz) as Hin.
      rewrite Forall_forall in Ha.
      unfold peek. simpl. rewrite Hz. simpl. intros ->.
      apply (Ha _ Hin). compute_done.
    - apply lookup_ge_None in Hz. simpl in Hz. lia. }
  unfold text. destruct d as [a|a| | | |]; simpl in *;
    try (destruct a; [done|apply Hne; done]); try done.
  - apply (Hne "m" [c]); done.
  - apply (Hne "f" [c]); done.
Qed.

Lemma before_offset_not_f c ds i :
  plain_args ds → offset_of c ds = Some (S i) → peek (body_of ds) i ≠ "f".
Proof.
  intros Hds. revert i. induction Hds as [|d ds Hd Hds IH]; intros i; [done|].
  simpl. destruct (Ascii.eqb (letter d) c); [done|].
  destruct (offset_of c ds) as [n|] eqn:Hn; [|done]. simpl.
  intros [= Hi]. rewrite body_of_cons_text.
  destruct n as [|n].
  - assert (i = length (args d)) as -> by lia.
    unfold peek. rewrite lookup_app_l by (simpl; lia).
    by apply last_of_text_not_f.
  - assert (i = length (text d) + n) as -> by (simpl; lia).
    unfold peek. rewrite lookup_app_r by lia.
    replace (length (text d) + n - length (text d)) with n by lia.
    by apply IH.
Qed.

Lemma directive_marker_body c ds :
  c ∈ letters → plain_args ds →
  directive_marker c (body_of ds) = offset_of c ds.
Proof.
  intros Hc Hds. unfold directive_marker. rewrite first_occ_body by done.
  destruct (offset_of c ds) as [[|i]|] eqn:Hi; [done| |done].
  rewrite bool_decide_eq_true_2 by lia. simpl.
  replace (i - 0) with i by lia.
  destruct (Ascii.eqb_spec (peek (body_of ds) i) "f") as [Hf|_]; [|done].
  by apply before_offset_not_f in Hi.
Qed.

Lemma after_offset c ds j :
  offset_of c ds = Some j →
  ∃ a r, arg_of c ds = Some a ∧ drop (j + 1) (body_of ds) = a ++ body_of r.
Proof.
  revert j. induction ds as [|d ds IH]; intros j; [done|]. simpl.
  destruct (Ascii.eqb (letter d) c).
  - intros [= <-]. exists (args d), ds. done.
  - destruct (offset_of c ds) as [n|] eqn:Hn; [|done]. simpl.
    intros [= <-]. destruct (IH n eq_refl) as (a & r & Ha & Hdrop).
    exists a, r. split; [done|]. rewrite body_of_cons_text, <- Hdrop.
    replace (S (length (args d) + n) + 1) with (length (text d) + (n + 1))
      by (simpl; lia).
    by rewrite drop_app_add.
Qed.

Lemma no_offset c ds : offset_of c ds = None → arg_of c ds = None.
Proof.
  induction ds as [|d ds IH]; [done|]. simpl.
  destruct (Ascii.eqb (letter d) c); [done|].
  destruct (offset_of c ds); [done|]. auto.
Qed.

Lemma ends_number_body r : ends_number (body_of r).
Proof. destruct r as [|d r]; [done|]. by destruct d. Qed.

Lemma arg_of_single c ds a :
  c = "m" ∨ c = "f" → arg_of c ds = Some a → ∃ x, a = [x].
Proof.
  intros Hc. induction ds as [|d ds IH]; [done|]. simpl.
  destruct (Ascii.eqb_spec (letter d) c) as [Hl|_]; [|done].
  intros [= <-]. destruct d; simpl in *; eauto;
    destruct Hc; subst; discriminate.
Qed.

Section canon_facts.
Context {T : Type} `{!Stream T}.

Lemma apply_body_canon (out : T) (ds : list directive) :
  plain_args ds → apply_body out (body_of ds) = canon out ds.
Proof.
  intros Hds.
  assert (∀ c, c ∈ letters →
    (directive_marker c (body_of ds) = None ∧
     first_occ c (body_of ds) = None ∧ arg_of c ds = None) ∨
    (∃ j a r, directive_marker c (body_of ds) = Some j ∧
      first_occ c (body_of ds) = Some j ∧ arg_of c ds = Some a ∧
      drop (j + 1) (body_of ds) = a ++ body_of r)) as Hloc.
  { intros c Hc. rewrite directive_marker_body, first_occ_body by done.
    destruct (offset_of c ds) as [j|] eqn:Hj.
    - right. destruct (after_offset _ _ _ Hj) as (a & r & ? & ?).
      by exists j, a, r.
    - left. by rewrite no_offset. }
  assert (∀ j a r, drop (j + 1) (body_of ds) = a ++ body_of r →
    (∃ x, a = [x]) → peek (body_of ds) (j + 1) = peek a 0) as Hpeek.
  { intros j a r Hdrop [x ->].
    rewrite <- (Nat.add_0_r (j + 1)), <- peek_drop. by rewrite Hdrop. }
  unfold apply_body, canon.
  assert (∀ o, body_w (body_of ds) o =
    match arg_of "w" ds with Some a => setw (atoi_str a) o | None => o end) as Hw.
  { intros o. unfold body_w.
    destruct (Hloc "w") as [(-> & _ & ->)|(j & a & r & -> & _ & -> & ->)];
      [compute_done|done|].
    by rewrite atoi_str_app by apply ends_number_body. }
  assert (∀ o, body_p (body_of ds) o =
    match arg_of "p" ds with
    | Some a => setprecision (atoi_str a) o
    | None => o
    end) as Hp.
  { intros o. unfold body_p.
    destruct (Hloc "p") as [(-> & _ & ->)|(j & a & r & -> & _ & -> & ->)];
      [compute_done|done|].
    by rewrite atoi_str_app by apply ends_number_body. }
  assert (∀ o, body_m (body_of ds) o =
    match arg_of "m" ds with
    | Some a => set_notation (peek a 0) o
    | None => o
    end) as Hm.
  { intros o. unfold body_m.
    destruct (Hloc "m") as [(-> & _ & ->)|(j & a & r & -> & _ & Ha & Hd)];
      [compute_done|done|].
    rewrite Ha. erewrite Hpeek; [done..|].
    eapply arg_of_single; [|done]. auto. }
  assert (∀ o, body_f (body_of ds) o =
    match arg_of "f" ds with
    | Some a => setfill (peek a 0) o
    | None => o
    end) as Hf.
  { intros o. unfold body_f.
    destruct (Hloc "f") as [(_ & -> & ->)|(j & a & r & _ & -> & Ha & Hd)];
      [compute_done|done|].
    rewrite Ha. erewrite Hpeek; [done..|].
    eapply arg_of_single; [|done]. auto. }
  assert (∀ o, body_L (body_of ds) o =
    match arg_of "L" ds with Some _ => ios_left o | None => o end) as HL.
  { intros o. unfold body_L.
    destruct (Hloc "L") as [(_ & Hn & ->)|(j & a & r & _ & Hj & -> & _)];
      [compute_done| |].
    - apply first_occ_None in Hn. by rewrite bool_decide_eq_false_2.
    - apply first_occ_Some in Hj as [Hj _].
      apply list_elem_of_lookup_2 in Hj. by rewrite bool_decide_eq_true_2. }
  assert (∀ o, body_R (body_of ds) o =
    match arg_of "R" ds with Some _ => ios_right o | None => o end) as HR.
  { intros o. unfold body_R.
    destruct (Hloc "R") as [(_ & Hn & ->)|(j & a & r & _ & Hj & -> & _)];
      [compute_done| |].
    - apply first_occ_None in Hn. by rewrite bool_decide_eq_false_2.
    - apply first_occ_Some in Hj as [Hj _].
      apply list_elem_of_lookup_2 in Hj. by rewrite bool_decide_eq_true_2. }
  by rewrite Hw, Hp, Hm, Hf, HL, HR.
Qed.

End canon_facts.

Lemma arg_of_perm c ds ds' :
  NoDup (letter <$> ds) → ds ≡ₚ ds' → arg_of c ds = arg_of c ds'.
Proof.
  intros Hnd Hp.
  induction Hp as [|x l l' Hp IH|x y l|l l' l'' H1 IH1 H2 IH2].
  - done.
  - simpl. rewrite fmap_cons, NoDup_cons in Hnd. destruct Hnd as [_ Hnd].
    by rewrite IH.
  - simpl. rewrite !fmap_cons, !NoDup_cons, not_elem_of_cons in Hnd.
    destruct Hnd as ((Hne & _) & _).
    destruct (Ascii.eqb_spec (letter y) c), (Ascii.eqb_spec (letter x) c);
      congruence.
  - rewrite IH1 by done. apply IH2. by rewrite <- H1.
Qed.

Lemma plain_args_perm ds ds' : ds ≡ₚ ds' → plain_args ds → plain_args ds'.
Proof. unfold plain_args. by intros ->. Qed.

(** C5 as stated fails, in two ways.  A letter written twice is read at its
    first occurrence, so the order of the two decides; and the fill character
    [f] in front of a width directive hides the width, while the same two
    directives in the other order set it. *)
Lemma order_of_directives_matters :
  let twice := [DWidth (chars "5"); DWidth (chars "7")] in
  let twice' := [DWidth (chars "7"); DWidth (chars "5")] in
  let ds := [DFill "f"; DWidth (chars "5")] in
  let ds' := [DWidth (chars "5"); DFill "f"] in
  (twice ≡ₚ twice' ∧
   body_of twice = chars "w5w7" ∧ body_of twice' = chars "w7w5" ∧
   os_width (setOpts os_init (body_of twice ++ [NUL]) 0) = 5%Z ∧
   os_width (setOpts os_init (body_of twice' ++ [NUL]) 0) = 7%Z ∧
   setOpts os_init (body_of twice ++ [NUL]) 0 ≠
     setOpts os_init (body_of twice' ++ [NUL]) 0) ∧
  (ds ≡ₚ ds' ∧
   body_of ds = chars "ffw5" ∧ body_of ds' = chars "w5ff" ∧
   os_width (setOpts os_init (body_of ds ++ [NUL]) 0) = 0%Z ∧
   os_width (setOpts os_init (body_of ds' ++ [NUL]) 0) = 5%Z ∧
   setOpts os_init (body_of ds ++ [NUL]) 0 ≠
     setOpts os_init (body_of ds' ++ [NUL]) 0).
Proof.
  split; (split; [apply perm_swap|by vm_compute]).
Qed.

(** C5, as the code has it.  When every directive letter occurs at most
    once in the body and no argument, the fill character included, is itself
    a directive letter, the stream the parser leaves depends on the set of
    directives only: it is the result of applying them in the scan order
    width, precision, notation, fill, left, right, whatever their order in
    the body. *)
Theorem setOpts_order_independent {T : Type} `{!Stream T} (out : T)
    (ds ds' : list directive) (buf buf' : list ascii) (optstr optstr' : nat) :
  plain_args ds → NoDup (letter <$> ds) → ds ≡ₚ ds' →
  cstr buf optstr = body_of ds → cstr buf' optstr' = body_of ds' →
  setOpts out buf optstr = canon out ds ∧
  setOpts out buf' optstr' = setOpts out buf optstr.
Proof.
  intros Hplain Hnd Hp Hbuf Hbuf'.
  rewrite !setOpts_body, Hbuf, Hbuf'.
  rewrite !apply_body_canon by eauto using plain_args_perm.
  split; [done|]. unfold canon.
  by rewrite !(arg_of_perm _ ds ds').
Qed.

Lemma setOpts_order_independent_witness :
  setOpts os_init (chars "f*w6" ++ [NUL]) 0 =
    canon os_init [DFill "*"; DWidth (chars "6")] ∧
  setOpts os_init (chars "w6f*" ++ [NUL]) 0 =
    setOpts os_init (chars "f*w6" ++ [NUL]) 0.
Proof.
  apply (setOpts_order_independent os_init
    [DFill "*"; DWidth (chars "6")] [DWidth (chars "6"); DFill "*"]).
  - unfold plain_args. compute_done.
  - compute_done.
  - apply perm_swap.
  - reflexivity.
  - reflexivity.
Defined.

(** ** Later occurrences of a directive letter *)





Section duplicates.
Context {T : Type} `{!Stream T}.







End duplicates.




Lemma w5w7_sets_width_5 (out : ostream) :
  setOpts out (chars "w5w7" ++ [NUL]) 0 = setw 5 out.
Proof. by rewrite setOpts_body. Qed.

(** * Further properties of the code *)

(** ** [print] composes *)

(** X1.  Printing two packs one after the other is printing their
    concatenation. *)
Theorem print_app {T V : Type} `{!Stream T, !Put T V}
    (out : T) (vs ws : list V) :
  print out (vs ++ ws) = print (print out vs) ws.
Proof. unfold print. by rewrite !print_h_foldl, foldl_app. Qed.

(** ** The two copying overloads *)

(** X2.  On a format string that is not empty the array overload and the
    pointer overload do the same. *)
Theorem fprint_overloads_agree {T V : Type} `{!Stream T, !Put T V}
    (out : T) (s : list ascii) (vs : list V) :
  s ≠ [] → NUL ∉ s → fprint_lit out s vs = fprint_ptr out s vs.
Proof.
  intros Hs H0. unfold fprint_lit, fprint_ptr.
  rewrite strlen_terminated by done.
  replace (length s + 1) with (S (length s)) by lia.
  rewrite take_ge by (rewrite length_app; simpl; lia).
  destruct s as [|x s]; [done|].
  replace (Nat.eqb (length ((x :: s) ++ [NUL])) 1) with false; [done|].
  symmetry. apply Nat.eqb_neq. rewrite length_app. simpl. lia.
Qed.

Lemma fprint_overloads_agree_witness :
  fprint_lit os_init (chars "a{w3}b") [VInt 5] =
  fprint_ptr os_init (chars "a{w3}b") [VInt 5].
Proof.
  apply (fprint_overloads_agree os_init (chars "a{w3}b") [VInt 5]);
    compute_done.
Defined.

(** ** Substitution into a well-formed format string *)

Section substitution_facts.
Context {T V : Type} `{!Stream T, !Put T V}.

Lemma fprint_h_cons (out : T) (buf : list ascii) (f : option nat)
    (a : V) (rest : list V) :
  fprint_h out buf f (a :: rest) =
  fprint_h ((checkSetOpts out buf f).1.1 << a)
    (checkSetOpts out buf f).1.2 (checkSetOpts out buf f).2 rest.
Proof.
  cbn [fprint_h]. destruct (checkSetOpts out buf f) as [[o b] f'].
  by destruct rest.
Qed.

Lemma fprint_h_nil (out : T) (buf : list ascii) (f : option nat) :
  (fprint_h out buf f []).1 = (checkSetOpts out buf f).1.1.
Proof.
  cbn [fprint_h]. unfold fprint_h0.
  by destruct (checkSetOpts out buf f) as [[o b] f'].
Qed.

Lemma print_h_cons (out : T) (a : V) (rest : list V) :
  print_h out (a :: rest) = print_h (out << a) rest.
Proof. by destruct rest. Qed.

Lemma fmt_of_cons sg segs tail :
  fmt_of (sg :: segs) tail = seg_text sg ++ fmt_of segs tail.
Proof. unfold fmt_of. simpl. by rewrite <- app_assoc. Qed.

Lemma seg_buffer (pre lit body X : list ascii) :
  pre ++ seg_text (lit, body) ++ X = pre ++ lit ++ "{" :: body ++ "}" :: X.
Proof. unfold seg_text. simpl. by rewrite <- !app_assoc, <- app_comm_cons, <- app_assoc. Qed.

Lemma fprint_h_subst (segs : list (list ascii * list ascii)) (tail : list ascii) :
  Forall seg_ok segs → tail_ok tail →
  ∀ (vs : list V) (out : T) (pre : list ascii),
    (fprint_h out (pre ++ fmt_of segs tail ++ [NUL]) (Some (length pre)) vs).1 =
    subst out segs tail vs.
Proof.
  intros Hsegs (Ht1 & Ht2 & Ht0).
  induction Hsegs as [|[lit body] segs (Hl1 & Hl2 & Hl0 & Hb2 & Hb0) _ IH];
    intros vs out pre.
  - change (fmt_of [] tail) with tail. cbn [subst].
    assert (cstr (pre ++ tail ++ [NUL]) (length pre) = tail) as Hc
      by (by apply cstr_middle).
    assert (checkSetOpts out (pre ++ tail ++ [NUL]) (Some (length pre)) =
      (put_cstr out tail, pre ++ tail ++ [NUL], None)) as Hstep.
    { rewrite checkSetOpts_no_brace by (by rewrite Hc). by rewrite Hc. }
    destruct vs as [|v vs].
    + by rewrite fprint_h_nil, Hstep.
    + rewrite fprint_h_cons, Hstep. cbn [fst snd].
      by rewrite fprint_h_null, print_h_cons.
  - rewrite fmt_of_cons, <- app_assoc, seg_buffer. simpl in *.
    pose proof (checkSetOpts_placeholder out pre lit body
      (fmt_of segs tail ++ [NUL]) Hl1 Hl2 Hl0 Hb2 Hb0) as Hstep.
    destruct vs as [|v vs].
    + by rewrite fprint_h_nil, Hstep.
    + rewrite fprint_h_cons, Hstep. cbn [fst snd].
      replace (pre ++ lit ++ SOH :: body ++ SOH :: fmt_of segs tail ++ [NUL])
        with ((pre ++ lit ++ SOH :: body ++ [SOH]) ++ fmt_of segs tail ++ [NUL]).
      2:{ rewrite <- !app_assoc. simpl. by rewrite <- !app_assoc. }
      replace (length pre + length lit + length body + 2)
        with (length (pre ++ lit ++ SOH :: body ++ [SOH])).
      2:{ rewrite !length_app. simpl. rewrite length_app. simpl. lia. }
      apply IH.
Qed.

Lemma fmt_of_no_nul segs tail :
  Forall seg_ok segs → tail_ok tail → NUL ∉ fmt_of segs tail.
Proof.
  intros Hsegs (_ & _ & Ht0).
  induction Hsegs as [|[lit body] segs (_ & _ & Hl0 & _ & Hb0) _ IH]; [done|].
  rewrite fmt_of_cons. unfold seg_text. simpl in *.
  rewrite !not_elem_of_app, not_elem_of_cons, not_elem_of_app, not_elem_of_cons.
  repeat split; try done. apply not_elem_of_nil.
Qed.

(** One step on a placeholder that is never closed: the literal is written,
    the rest of the string is the body, and the format pointer is null. *)
Lemma checkSetOpts_dangling (out : T) (pre lit body rest : list ascii) :
  "{" ∉ lit → "}" ∉ lit → NUL ∉ lit → "}" ∉ body → NUL ∉ body →
  checkSetOpts out (pre ++ lit ++ "{" :: body ++ NUL :: rest) (Some (length pre)) =
    (apply_body (put_cstr out lit) body,
     pre ++ lit ++ SOH :: body ++ NUL :: rest, None).
Proof.
  intros Hl1 Hl2 Hl0 Hb2 Hb0. unfold checkSetOpts.
  rewrite (strchr_found _ _ lit "{" (body ++ NUL :: rest)); [|done..|].
  2:{ by rewrite drop_app_length. }
  rewrite (strchr_absent _ _ "}"); [|done|].
  2:{ rewrite (app_comm_cons body), (app_assoc lit).
      rewrite cstr_middle; [|done|].
      - rewrite not_elem_of_app, not_elem_of_cons. done.
      - rewrite not_elem_of_app, not_elem_of_cons. done. }
  simpl poke.
  assert (∀ x y X, <[length pre + length lit:=x]> (pre ++ lit ++ y :: X) =
    pre ++ lit ++ x :: X) as Hpoke.
  { intros x y X. rewrite (app_assoc pre lit), (insert_middle (pre ++ lit))
      by (rewrite length_app; lia).
    by rewrite <- app_assoc. }
  rewrite !Hpoke.
  rewrite cstr_middle by done. rewrite setOpts_body.
  replace (pre ++ lit ++ NUL :: body ++ NUL :: rest)
    with ((pre ++ lit ++ [NUL]) ++ body ++ NUL :: rest)
    by (by rewrite <- !app_assoc).
  by rewrite cstr_middle; [|rewrite !length_app; simpl; lia|done].
Qed.

End substitution_facts.

(** X3.  On a well-formed format string (segments of literal text and
    placeholder, then a last text) [fprint] writes each literal, applies the
    directives of the placeholder after it and inserts the next value.  Values
    left over when the placeholders run out follow the last text, back to
    back; when the values run out first, the literal of the next segment is
    still written and its directives applied, and nothing after it. *)
Theorem fprint_substitutes {T V : Type} `{!Stream T, !Put T V}
    (out : T) (segs : list (list ascii * list ascii)) (tail : list ascii)
    (vs : list V) :
  Forall seg_ok segs → tail_ok tail →
  fprint_ptr out (fmt_of segs tail) vs = subst out segs tail vs ∧
  fprint_lit out (fmt_of segs tail) vs =
    match fmt_of segs tail with
    | [] => print out vs
    | _ :: _ => subst out segs tail vs
    end.
Proof.
  intros Hsegs Htail.
  pose proof (fmt_of_no_nul _ _ Hsegs Htail) as H0.
  pose proof (fprint_h_subst segs tail Hsegs Htail vs out []) as Hsub.
  simpl in Hsub. split.
  - unfold fprint_ptr. rewrite strlen_terminated by done.
    replace (length (fmt_of segs tail) + 1)
      with (S (length (fmt_of segs tail))) by lia.
    by rewrite take_ge by (rewrite length_app; simpl; lia).
  - unfold fprint_lit. destruct (fmt_of segs tail) as [|x s] eqn:Hfmt; [done|].
    replace (Nat.eqb (length ((x :: s) ++ [NUL])) 1) with false; [done|].
    symmetry. apply Nat.eqb_neq. rewrite length_app. simpl. lia.
Qed.

Lemma fprint_substitutes_witness :
  fprint_ptr os_init (fmt_of [(chars "x=", chars "w3"); (chars " y=", [])] (chars "."))
    [VInt 1; VInt 2] =
    subst os_init [(chars "x=", chars "w3"); (chars " y=", [])] (chars ".")
      [VInt 1; VInt 2] ∧
  fprint_lit os_init
    (fmt_of [(chars "x=", chars "w3"); (chars " y=", [])] (chars "."))
    [VInt 1; VInt 2] =
    subst os_init [(chars "x=", chars "w3"); (chars " y=", [])] (chars ".")
      [VInt 1; VInt 2].
Proof.
  apply (fprint_substitutes os_init
    [(chars "x=", chars "w3"); (chars " y=", [])] (chars ".") [VInt 1; VInt 2]).
  - unfold seg_ok. compute_done.
  - unfold tail_ok. compute_done.
Defined.

(** X4.  A placeholder that is never closed takes the rest of the format
    string as its body: the literal before the brace is written, the
    directives found in the rest are applied, the rest itself is never
    written, and all values follow back to back. *)
Theorem fprint_dangling_brace {T V : Type} `{!Stream T, !Put T V}
    (out : T) (lit body : list ascii) (vs : list V) :
  "{" ∉ lit → "}" ∉ lit → NUL ∉ lit → "}" ∉ body → NUL ∉ body →
  fprint_lit out (lit ++ "{" :: body) vs =
    print (apply_body (put_cstr out lit) body) vs ∧
  fprint_ptr out (lit ++ "{" :: body) vs =
    print (apply_body (put_cstr out lit) body) vs.
Proof.
  intros Hl1 Hl2 Hl0 Hb2 Hb0.
  assert (NUL ∉ lit ++ "{" :: body) as H0.
  { rewrite not_elem_of_app, not_elem_of_cons. done. }
  assert (lit ++ "{" :: body ≠ []) as Hne by (by destruct lit).
  assert ((fprint_h out ((lit ++ "{" :: body) ++ [NUL]) (Some 0) vs).1 =
    print (apply_body (put_cstr out lit) body) vs) as Hrun.
  { pose proof (checkSetOpts_dangling out [] lit body [] Hl1 Hl2 Hl0 Hb2 Hb0)
      as Hstep.
    cbn [app length] in Hstep. rewrite <- app_assoc. cbn [app].
    destruct vs as [|v vs].
    - by rewrite fprint_h_nil, Hstep.
    - rewrite fprint_h_cons, Hstep. cbn [fst snd].
      unfold print. by rewrite fprint_h_null, print_h_cons. }
  split.
  - unfold fprint_lit.
    replace (Nat.eqb (length ((lit ++ "{" :: body) ++ [NUL])) 1) with false;
      [done|].
    symmetry. apply Nat.eqb_neq. rewrite !length_app. simpl. lia.
  - unfold fprint_ptr. rewrite strlen_terminated by done.
    replace (length (lit ++ "{" :: body) + 1)
      with (S (length (lit ++ "{" :: body))) by lia.
    by rewrite take_ge by (rewrite length_app; simpl; lia).
Qed.

Lemma fprint_dangling_brace_witness :
  fprint_lit os_init (chars "a" ++ "{" :: chars "w3 b") [VInt 5] =
    print (apply_body (put_cstr os_init (chars "a")) (chars "w3 b")) [VInt 5] ∧
  fprint_ptr os_init (chars "a" ++ "{" :: chars "w3 b") [VInt 5] =
    print (apply_body (put_cstr os_init (chars "a")) (chars "w3 b")) [VInt 5].
Proof.
  apply (fprint_dangling_brace os_init (chars "a") (chars "w3 b") [VInt 5]);
    compute_done.
Defined.

(** ** What the option parser changes *)

Lemma set_notation_float (c : ascii) (o : ostream) :
  set_notation c o = with_float (notation_of c (os_float o)) o.
Proof.
  unfold set_notation, notation_of.
  destruct (Ascii.eqb c "x"); [done|]. destruct (Ascii.eqb c "s"); [done|].
  destruct (Ascii.eqb c "h"); [done|]. destruct (Ascii.eqb c "d"); [done|].
  by destruct o.
Qed.

Lemma apply_body_parsed (body : list ascii) (o : ostream) :
  apply_body o body = parsed body o.
Proof.
  unfold apply_body, parsed, body_R, body_L, body_f, body_m, body_p, body_w.
  destruct o as [t w p c fl adj].
  destruct (directive_marker "w" body), (directive_marker "p" body),
    (directive_marker "m" body), (first_occ "f" body),
    (bool_decide ("L" ∈ body)), (bool_decide ("R" ∈ body));
    rewrite ?set_notation_float; reflexivity.
Qed.

(** X5.  On a stream, [setOpts] writes no text and sets each field of the
    formatting state from its own letter alone: the width and the precision
    from the number after the marker of [w] and of [p], the fill character
    from the byte after the first [f], the float notation from the byte after
    the marker of [m] (unchanged when it is none of [x], [s], [h], [d]), and
    the adjustment to right when the body has an [R] anywhere, else to left
    when it has an [L]; a field whose letter is absent is left as it is. *)
Theorem setOpts_fields (out : ostream) (buf : list ascii) (optstr : nat) :
  setOpts out buf optstr = parsed (cstr buf optstr) out.
Proof. rewrite setOpts_body. apply apply_body_parsed. Qed.

Lemma notation_of_idem c f : notation_of c (notation_of c f) = notation_of c f.
Proof.
  unfold notation_of.
  destruct (Ascii.eqb c "x"); [done|]. destruct (Ascii.eqb c "s"); [done|].
  destruct (Ascii.eqb c "h"); [done|]. by destruct (Ascii.eqb c "d").
Qed.

(** X6.  Parsing the same options a second time changes nothing: [setOpts]
    is idempotent on the stream. *)
Theorem setOpts_idempotent (out : ostream) (buf : list ascii) (optstr : nat) :
  setOpts (setOpts out buf optstr) buf optstr = setOpts out buf optstr.
Proof.
  rewrite !setOpts_body, !apply_body_parsed.
  set (body := cstr buf optstr). unfold parsed. simpl.
  f_equal.
  - by destruct (directive_marker "w" body).
  - by destruct (directive_marker "p" body).
  - by destruct (first_occ "f" body).
  - destruct (directive_marker "m" body); [apply notation_of_idem|done].
  - by destruct (bool_decide ("R" ∈ body)), (bool_decide ("L" ∈ body)).
Qed.

(** X7.  A body with none of the six directive letters, the empty body
    included, leaves the stream exactly as it was: characters that are not
    directives are skipped. *)
Theorem setOpts_no_letters {T : Type} `{!Stream T}
    (out : T) (buf : list ascii) (optstr : nat) :
  Forall (λ c, c ∉ cstr buf optstr) letters → setOpts out buf optstr = out.
Proof.
  intros Hno. rewrite setOpts_body.
  assert (∀ c, c ∈ letters → first_occ c (cstr buf optstr) = None) as Hnone.
  { intros c Hc. apply first_occ_None. rewrite Forall_forall in Hno. auto. }
  assert (∀ c, c ∈ letters → directive_marker c (cstr buf optstr) = None)
    as Hmark.
  { intros c Hc. unfold directive_marker. by rewrite Hnone. }
  unfold apply_body, body_R, body_L, body_f, body_m, body_p, body_w.
  rewrite !Hmark, Hnone by compute_done.
  rewrite Forall_forall in Hno.
  by rewrite !bool_decide_eq_false_2 by (apply Hno; compute_done).
Qed.

Lemma setOpts_no_letters_witness :
  setOpts os_init (chars "{ 12}" ++ [NUL]) 1 = os_init.
Proof.
  apply (setOpts_no_letters os_init (chars "{ 12}" ++ [NUL]) 1).
  compute_done.
Defined.

(** ** Text already written is never touched *)

Lemma emit_prefix (o : ostream) (sign body : list ascii) :
  os_text o `prefix_of` os_text (emit o sign body).
Proof. by exists (padded o sign body). Qed.

Lemma setOpts_text (o : ostream) (buf : list ascii) (optstr : nat) :
  os_text (setOpts o buf optstr) = os_text o.
Proof. by rewrite setOpts_body, apply_body_parsed. Qed.

Lemma checkSetOpts_prefix (o : ostream) (buf : list ascii) (f : option nat) :
  os_text o `prefix_of` os_text (checkSetOpts o buf f).1.1.
Proof.
  destruct f as [f|]; [|done]. unfold checkSetOpts. cbn [fst].
  destruct (strchr buf f "{"); rewrite ?setOpts_text; apply emit_prefix.
Qed.

Lemma fprint_h_prefix (vs : list value) (o : ostream) (buf : list ascii)
    (f : option nat) :
  os_text o `prefix_of` os_text (fprint_h o buf f vs).1.
Proof.
  revert o buf f. induction vs as [|v vs IH]; intros o buf f.
  - rewrite fprint_h_nil. apply checkSetOpts_prefix.
  - rewrite fprint_h_cons. etrans; [|apply IH].
    etrans; [apply checkSetOpts_prefix|apply emit_prefix].
Qed.

(** X8.  Whatever the format string, well formed or not, and whatever the
    values, [print] and both [fprint] only append: the text the stream held
    before the call is a prefix of the text it holds after. *)
Theorem output_is_appended (out : ostream) (s : list ascii) (vs : list value) :
  os_text out `prefix_of` os_text (print out vs) ∧
  os_text out `prefix_of` os_text (fprint_lit out s vs) ∧
  os_text out `prefix_of` os_text (fprint_ptr out s vs).
Proof.
  assert (os_text out `prefix_of` os_text (print out vs)) as Hprint.
  { unfold print. rewrite print_h_foldl, foldl_put_text. by eexists. }
  split; [done|]. split.
  - unfold fprint_lit. destruct (Nat.eqb _ 1); [done|apply fprint_h_prefix].
  - unfold fprint_ptr. destruct (strlen _ + 1); [done|apply fprint_h_prefix].
Qed.

(** ** The format pointer *)

Lemma nul_positions (l l' : list ascii) :
  length l = length l' →
  (∀ i, l !! i = Some NUL ↔ l' !! i = Some NUL) →
  length (until_nul l) = length (until_nul l').
Proof.
  revert l'. induction l as [|x l IH]; intros [|y l'] Hlen Hnul;
    simpl in *; try done.
  pose proof (Hnul 0) as H0. simpl in H0.
  destruct (Ascii.eqb_spec x NUL) as [->|Hx], (Ascii.eqb_spec y NUL) as [->|Hy];
    simpl; try done.
  - destruct H0 as [H0 _]. specialize (H0 eq_refl). congruence.
  - destruct H0 as [_ H0]. specialize (H0 eq_refl). congruence.
  - f_equal. apply IH; [lia|]. intros i. apply (Hnul (S i)).
Qed.

Lemma checkSetOpts_buffer_lookup {T : Type} `{!Stream T}
    (out : T) (buf : list ascii) (f i : nat) :
  (checkSetOpts out buf (Some f)).1.2 !! i =
    if bool_decide (strchr buf f "{" = Some i ∨ strchr buf f "}" = Some i)
    then Some SOH else buf !! i.
Proof.
  assert (∀ c j, strchr buf f c = Some j → j < length buf) as Hin.
  { intros c j Hj. apply strchr_Some in Hj. by eapply lookup_lt_Some. }
  unfold checkSetOpts. cbn [fst snd].
  rewrite lookup_poke2 by (rewrite !length_poke; eauto).
  rewrite lookup_poke2 by eauto.
  by case_bool_decide.
Qed.

(** X9.  A step that returns a format pointer has moved it forward, past the
    closing brace it found, and has left the terminator of the format string
    where it was: the pointer plus the length of the string left at it is
    the same before and after.  A step returns the null pointer exactly when
    the string at the pointer has no closing brace. *)
Theorem checkSetOpts_advances {T : Type} `{!Stream T}
    (out : T) (buf : list ascii) (f : nat) :
  match (checkSetOpts out buf (Some f)).2 with
  | Some f' =>
      f < f' ∧
      f' + strlen (drop f' (checkSetOpts out buf (Some f)).1.2) =
        f + strlen (drop f buf)
  | None => "}" ∉ cstr buf f
  end.
Proof.
  assert ((checkSetOpts out buf (Some f)).2 = S <$> strchr buf f "}") as ->
    by done.
  set (buf' := (checkSetOpts out buf (Some f)).1.2).
  unfold strchr at 1. rewrite scan_first_occ by done. fold (cstr buf f).
  destruct (first_occ "}" (cstr buf f)) as [i|] eqn:Hi; simpl.
  2:{ by apply first_occ_None. }
  pose proof (first_occ_lt _ _ _ Hi) as Hlt.
  split; [lia|].
  assert (strlen (drop (S (f + i)) buf') = strlen (drop (S (f + i)) buf)) as ->.
  { unfold strlen, buf'. apply nul_positions.
    - rewrite !length_drop. f_equal.
      unfold checkSetOpts. cbn [fst snd]. by rewrite !length_poke.
    - intros k. rewrite !lookup_drop, checkSetOpts_buffer_lookup.
      case_bool_decide as Hk; [|done].
      split; [done|]. intros Hnul.
      destruct Hk as [Hk|Hk]; apply strchr_Some in Hk;
        rewrite Hk in Hnul; by inversion Hnul. }
  unfold strlen.
  replace (S (f + i)) with (f + (i + 1)) by lia.
  rewrite <- drop_drop, until_nul_drop by (fold (cstr buf f); lia).
  fold (cstr buf f). rewrite length_drop. lia.
Qed.

(** ** Numbers in width and precision directives *)

Lemma atoi_str_digit (c : ascii) (t : list ascii) :
  digit_val c ≠ None → atoi_str (c :: t) = atoi_digits (c :: t) 0.
Proof.
  intros Hd. cbn [atoi_str].
  assert (isspace c = false ∧ Ascii.eqb c "-" = false ∧ Ascii.eqb c "+" = false)
    as (-> & -> & ->); [|done].
  destruct c as [[] [] [] [] [] [] [] []]; vm_compute in Hd |- *;
    first [done | by destruct Hd].
Qed.

Lemma atoi_digits_step (c : ascii) (t : list ascii) (acc k : Z) :
  digit_val c = Some k → atoi_digits (c :: t) acc = atoi_digits t (10 * acc + k).
Proof. intros Hc. cbn [atoi_digits]. by rewrite Hc. Qed.

Lemma atoi_digits_uint_pos (d : Decimal.uint) (p : positive) :
  atoi_digits (chars (NilEmpty.string_of_uint d)) (Z.pos p) =
  Z.pos (Pos.of_uint_acc d p).
Proof.
  revert p. unfold chars.
  induction d as [|d IH|d IH|d IH|d IH|d IH|d IH|d IH|d IH|d IH|d IH];
    intros p; [done|..];
    cbn [NilEmpty.string_of_uint list_ascii_of_string Pos.of_uint_acc];
    erewrite atoi_digits_step by (vm_compute; reflexivity);
    rewrite <- IH; f_equal; lia.
Qed.

Lemma atoi_digits_uint (d : Decimal.uint) :
  atoi_digits (chars (NilEmpty.string_of_uint d)) 0 = Z.of_N (Pos.of_uint d).
Proof.
  induction d as [|d IH|d IH|d IH|d IH|d IH|d IH|d IH|d IH|d IH|d IH];
    [done|..]; unfold chars in *;
    cbn [NilEmpty.string_of_uint list_ascii_of_string Pos.of_uint];
    erewrite atoi_digits_step by (vm_compute; reflexivity);
    [exact IH|..]; cbn [Z.of_N]; rewrite <- atoi_digits_uint_pos; done.
Qed.

Lemma atoi_str_decimal (n : N) : atoi_str (decimal (Z.of_N n)) = Z.of_N n.
Proof.
  unfold decimal. rewrite Zabs2N.id.
  rewrite <- (DecimalN.Unsigned.of_to n) at 2. unfold N.of_uint.
  rewrite <- atoi_digits_uint.
  destruct (N.to_uint n); [done|..];
    cbn [NilZero.string_of_uint NilEmpty.string_of_uint chars
         list_ascii_of_string];
    by rewrite atoi_str_digit by (vm_compute; discriminate).
Qed.

Lemma directive_marker_at (c : ascii) (pre X : list ascii) :
  c ∉ pre → last pre ≠ Some "f" →
  directive_marker c (pre ++ c :: X) = Some (length pre).
Proof.
  intros Hc Hf. unfold directive_marker. rewrite first_occ_app by done.
  destruct (decide (0 < length pre)) as [Hlen|Hlen].
  - rewrite bool_decide_eq_true_2 by done. simpl.
    rewrite last_lookup in Hf. unfold peek.
    rewrite lookup_app_l by lia.
    replace (length pre - 1) with (pred (length pre)) by lia.
    destruct (pre !! pred (length pre)) as [x|]; simpl; [|done].
    destruct (Ascii.eqb_spec x "f") as [->|_]; done.
  - by rewrite bool_decide_eq_false_2.
Qed.

Section number_facts.
Context {T : Type} `{!Stream T}.

Lemma body_w_at (pre X : list ascii) (out : T) :
  "w" ∉ pre → last pre ≠ Some "f" →
  body_w (pre ++ "w" :: X) out = setw (atoi_str X) out.
Proof.
  intros Hc Hf. unfold body_w. rewrite directive_marker_at by done.
  by rewrite drop_app_add.
Qed.

Lemma body_p_at (pre X : list ascii) (out : T) :
  "p" ∉ pre → last pre ≠ Some "f" →
  body_p (pre ++ "p" :: X) out = setprecision (atoi_str X) out.
Proof.
  intros Hc Hf. unfold body_p. rewrite directive_marker_at by done.
  by rewrite drop_app_add.
Qed.

End number_facts.

Lemma atoi_digits_before_nondigit a rest acc :
  ends_digits rest → atoi_digits (a ++ rest) acc = atoi_digits a acc.
Proof.
  intros Hrest. revert acc. induction a as [|x a IH]; intros acc; simpl.
  - destruct rest as [|c tl]; [done|]. simpl in *. by rewrite Hrest.
  - destruct (digit_val x); [apply IH|done].
Qed.

Lemma atoi_str_decimal_then (n : N) (rest : list ascii) :
  ends_digits rest → atoi_str (decimal (Z.of_N n) ++ rest) = Z.of_N n.
Proof.
  intros Hrest. rewrite <- (atoi_str_decimal n) at 2.
  assert (∃ c t, decimal (Z.of_N n) = c :: t ∧ digit_val c ≠ None)
    as (c & t & -> & Hc).
  { unfold decimal. destruct (N.to_uint (Z.abs_N (Z.of_N n)));
      cbn [NilZero.string_of_uint NilEmpty.string_of_uint chars
           list_ascii_of_string];
      eexists _, _; (split; [reflexivity|vm_compute; discriminate]). }
  rewrite <- app_comm_cons, !atoi_str_digit by done.
  by rewrite app_comm_cons, atoi_digits_before_nondigit.
Qed.

(** X10.  A width or precision directive followed by the decimal text of a
    natural number in the range of [int], as [<<] writes it for an [int],
    and then by the end of the body or a character that is not a digit, sets
    the width or the precision to that number. *)
Theorem directive_reads_decimal {T : Type} `{!Stream T}
    (out : T) (buf : list ascii) (optstr : nat) (c : ascii)
    (pre rest : list ascii) (n : N) :
  c = "w" ∨ c = "p" → (Z.of_N n ≤ int_max)%Z →
  cstr buf optstr = pre ++ c :: decimal (Z.of_N n) ++ rest →
  c ∉ pre → last pre ≠ Some "f" → ends_digits rest →
  (if bool_decide (c = "w") then opt_w else opt_p) buf optstr out =
  (if bool_decide (c = "w") then setw else setprecision) (Z.of_N n) out.
Proof.
  intros [-> | ->] _ Hbody Hc Hf Hrest; simpl.
  - rewrite opt_w_body, Hbody, body_w_at by done.
    by rewrite atoi_str_decimal_then.
  - rewrite opt_p_body, Hbody, body_p_at by done.
    by rewrite atoi_str_decimal_then.
Qed.

Lemma directive_reads_decimal_witness :
  opt_w (chars "f*w120 L" ++ [NUL]) 0 os_init = setw 120 os_init.
Proof.
  apply (directive_reads_decimal os_init (chars "f*w120 L" ++ [NUL]) 0 "w"
    (chars "f*") (chars " L") 120).
  - by left.
  - unfold int_max. simpl. lia.
  - reflexivity.
  - compute_done.
  - simpl. discriminate.
  - reflexivity.
Defined.

(** X11.  A width or precision directive with no number after it does not
    leave the field alone: [atoi] gives 0 and the field is set to 0. *)
Theorem directive_without_number {T : Type} `{!Stream T}
    (out : T) (buf : list ascii) (optstr : nat) (c : ascii)
    (pre rest : list ascii) :
  c = "w" ∨ c = "p" →
  cstr buf optstr = pre ++ c :: rest →
  c ∉ pre → last pre ≠ Some "f" → ends_number rest →
  (if bool_decide (c = "w") then opt_w else opt_p) buf optstr out =
  (if bool_decide (c = "w") then setw else setprecision) 0%Z out.
Proof.
  intros [-> | ->] Hbody Hc Hf Hrest; simpl.
  - rewrite opt_w_body, Hbody, body_w_at by done.
    by rewrite <- (app_nil_l rest), atoi_str_app.
  - rewrite opt_p_body, Hbody, body_p_at by done.
    by rewrite <- (app_nil_l rest), atoi_str_app.
Qed.

Lemma directive_without_number_witness :
  opt_p (chars "{Lp}" ++ [NUL]) 1 (setprecision 3 os_init) =
  setprecision 0 (setprecision 3 os_init).
Proof.
  apply (directive_without_number (setprecision 3 os_init)
    (chars "{Lp}" ++ [NUL]) 1 "p" (chars "L") (chars "}")).
  - by right.
  - reflexivity.
  - compute_done.
  - simpl. discriminate.
  - reflexivity.
Defined.

(** ** The state [print] leaves *)

Lemma foldl_put_state (vs : list value) (o : ostream) :
  vs ≠ [] →
  foldl put o vs = with_width 0 (with_text (os_text (foldl put o vs)) o).
Proof.
  revert o. induction vs as [|v vs IH]; intros o Hne; [done|]. simpl.
  destruct vs as [|v' vs]; [done|].
  rewrite IH at 1 by done. by destruct o.
Qed.

(** X12.  [print] with at least one value changes the text and resets the
    width, and nothing else: fill character, precision, float notation and
    adjustment are those the stream came with. *)
Theorem print_keeps_state (out : ostream) (vs : list value) :
  vs ≠ [] →
  print out vs =
    with_width 0 (with_text (os_text out ++ concat (reps out vs)) out).
Proof.
  intros Hne. unfold print.
  by rewrite print_h_foldl, foldl_put_state, foldl_put_text.
Qed.

Lemma print_keeps_state_witness :
  print (setfill "*" os_init) [VInt 5; VChar "a"] =
    with_width 0 (with_text
      (os_text (setfill "*" os_init) ++
       concat (reps (setfill "*" os_init) [VInt 5; VChar "a"]))
      (setfill "*" os_init)).
Proof.
  apply (print_keeps_state (setfill "*" os_init) [VInt 5; VChar "a"]).
  discriminate.
Defined.

(** ** Empty placeholders *)

Lemma subst_empty_text (out : ostream) (tail : list ascii) (lits : list (list ascii)) :
  ∀ (vs : list value) (o : ostream),
    length lits = length vs → (os_width o ≤ 0)%Z →
    os_fill o = os_fill out → os_adjust o = os_adjust out →
    os_text (subst o ((λ l, (l, [])) <$> lits) tail vs) =
      os_text o ++
      concat (zip_with (λ l v, l ++ rep (with_width 0 out) v) lits vs) ++ tail.
Proof.
  induction lits as [|l lits IH]; intros [|v vs] o Hlen Hw Hf Ha;
    simpl in Hlen; try done.
  - change (subst o ((λ l, (l, [])) <$> []) tail []) with (put_cstr o tail).
    by rewrite put_cstr_no_width by done.
  - cbn [fmap list_fmap subst fst snd zip_with concat].
    change (apply_body (put_cstr o l) []) with (put_cstr o l).
    rewrite put_cstr_no_width by done.
    rewrite IH; [|lia|done..]. simpl.
    rewrite <- !app_assoc. do 2 f_equal.
    rewrite !app_assoc. do 2 f_equal. by apply rep_ext.
Qed.

(** X13.  With one empty placeholder per value, on a stream with no field
    width pending, the text written is each literal followed by the plain
    representation of its value, in order, and then the last text. *)
Theorem fprint_interleaves (out : ostream) (lits : list (list ascii))
    (tail : list ascii) (vs : list value) :
  Forall (λ l, ("{" ∉ l) ∧ ("}" ∉ l) ∧ (NUL ∉ l)) lits → tail_ok tail →
  length lits = length vs → (os_width out ≤ 0)%Z →
  os_text (fprint_ptr out (fmt_of ((λ l, (l, [])) <$> lits) tail) vs) =
    os_text out ++ concat (zip_with (λ l v, l ++ rep out v) lits vs) ++ tail.
Proof.
  intros Hlits Htail Hlen Hw.
  assert (Forall seg_ok ((λ l, (l, [])) <$> lits)) as Hsegs.
  { apply Forall_fmap. eapply Forall_impl; [exact Hlits|].
    intros l (H1 & H2 & H0). unfold seg_ok. simpl.
    repeat split; try done; apply not_elem_of_nil. }
  pose proof (fmt_of_no_nul _ _ Hsegs Htail) as H0.
  unfold fprint_ptr. rewrite strlen_terminated by done.
  replace (length (fmt_of ((λ l, (l, [])) <$> lits) tail) + 1)
    with (S (length (fmt_of ((λ l, (l, [])) <$> lits) tail))) by lia.
  rewrite take_ge by (rewrite length_app; simpl; lia).
  pose proof (fprint_h_subst _ tail Hsegs Htail vs out []) as Hsub.
  simpl in Hsub. rewrite Hsub.
  rewrite (subst_empty_text out) by done.
  do 3 f_equal. apply zip_with_ext; [|done..].
  intros l v. f_equal. symmetry. by apply rep_no_width.
Qed.

Lemma fprint_interleaves_witness :
  os_text (fprint_ptr os_init
    (fmt_of ((λ l, (l, [])) <$> [chars "a="; chars ", b="]) (chars "."))
    [VInt 1; VStr (chars "xy")]) =
  os_text os_init ++
    concat (zip_with (λ l v, l ++ rep os_init v) [chars "a="; chars ", b="]
      [VInt 1; VStr (chars "xy")]) ++ chars ".".
Proof.
  apply (fprint_interleaves os_init [chars "a="; chars ", b="] (chars ".")
    [VInt 1; VStr (chars "xy")]).
  - compute_done.
  - unfold tail_ok. compute_done.
  - reflexivity.
  - simpl. lia.
Defined.
